(** * A shallow embedding of [src/index.ts]

    The file follows the source top to bottom: the JavaScript string
    primitives the code calls, the singly linked list ([LinkedList]), and
    the dependency graph ([DependencyGraph]) with its cycle check, its
    topological traversals and its textual form.

    Conventions of the embedding:
    - a JavaScript [number] is a [Z];
    - a JavaScript string is a list of characters ([str]); indices count
      characters from 0, and "not found" is [-1] as in the source;
    - [Map<T, Set<T>>] is an association list in insertion order whose
      values are lists in insertion order (both containers iterate in
      insertion order, and the traversals depend on it);
    - the [visited] sets are only ever asked [has] and [add], so they are
      finite sets ([gset]);
    - [Map], [Set] and [visited] compare items by identity of value (the
      equality of the item type), while the cycle check compares with
      [==]: the two are kept apart ([loose_eq]), because they differ on
      [NaN] and across types;
    - mutation is explicit state passing; a thrown [Error] is the [Raise]
      outcome of the [res] monad; recursion that is not structural takes a
      fuel argument and answers [OutOfFuel] when it runs dry. *)

From stdpp Require Import base option list sets gmap strings relations.
From Stdlib Require Import ZArith Lia Ascii.

#[local] Set Warnings "-clear-no-such-hyp".

(** ** Outcomes of a call *)

Inductive error : Type :=
  | CircularDependency    (* new Error("circular dependency") *)
  | TypeError.            (* a property read on undefined *)

Inductive res (A : Type) : Type :=
  | Ret (a : A)
  | Raise (e : error)
  | OutOfFuel.

Arguments Ret {A} a.
Arguments Raise {A} e.
Arguments OutOfFuel {A}.

(** Sequencing: an exception, or the lack of fuel, ends the computation. *)
Global Instance res_ret : MRet res := λ A a, Ret a.
Global Instance res_bind : MBind res := λ A B k m,
  match m with
  | Ret a => k a
  | Raise e => Raise e
  | OutOfFuel => OutOfFuel
  end.
Global Instance res_fmap : FMap res := λ A B f m,
  match m with
  | Ret a => Ret (f a)
  | Raise e => Raise e
  | OutOfFuel => OutOfFuel
  end.

(** ** JavaScript strings *)

Abbreviation str := (list ascii).

Module JSString.

Definition lit (s : string) : str := String.list_ascii_of_string s.

Definition length (s : str) : Z := Z.of_nat (List.length s).

(** Clamp an index argument into [0 .. length s]. *)
Definition clamp (s : str) (i : Z) : nat :=
  Z.to_nat (Z.min (Z.max i 0) (length s)).

Fixpoint starts_with (pat s : str) : bool :=
  match pat, s with
  | [], _ => true
  | _ :: _, [] => false
  | p :: pat', c :: s' => if decide (p = c) then starts_with pat' s' else false
  end.

(** Scan [s], whose first character has index [i], for [pat]. *)
Fixpoint search (pat s : str) (i : nat) : Z :=
  match s with
  | [] => if starts_with pat [] then Z.of_nat i else (-1)%Z
  | _ :: s' => if starts_with pat s then Z.of_nat i else search pat s' (S i)
  end.

(** [s.indexOf(pat, position)] *)
Definition indexOf (s pat : str) (position : Z) : Z :=
  let k := clamp s position in
  search pat (drop k s) k.

(** [s.substring(start, end)]: both arguments are clamped, and swapped
    when [start > end]. *)
Definition substring (s : str) (start end_ : Z) : str :=
  let a := clamp s start in
  let b := clamp s end_ in
  take (Nat.max a b - Nat.min a b) (drop (Nat.min a b) s).

(** [s.substr(start, len)]: a negative [start] counts from the end, a
    negative [len] is 0. *)
Definition substr (s : str) (start len : Z) : str :=
  let a := if (start <? 0)%Z then Z.to_nat (Z.max (length s + start) 0)
           else clamp s start in
  take (Z.to_nat (Z.max len 0)) (drop a s).

(** [s.includes(pat)] *)
Definition includes (s pat : str) : bool :=
  negb (indexOf s pat 0 =? -1)%Z.


End JSString.

(** ** [class Node<T>] and [class LinkedList<T>] *)

Module LinkedList.
Section LinkedList.
Context {T : Type}.
(** [data.toString()] *)
Context (toStr : T → str).

(** A reference to a [Node<T>]: [null], or a node with its [data] and its
    [next] reference. *)
Inductive NodeRef : Type :=
  | null
  | Node (data : T) (next : NodeRef).

Record t : Type := mk { head : NodeRef; count : Z }.

(** [constructor()] *)
Definition new : t := {| head := null; count := 0 |}.

(** [insert(element)] *)
Definition insert (l : t) (element : T) : t :=
  match head l with
  | null => {| head := Node element null; count := count l + 1 |}
  | Node _ _ as temp => {| head := Node element temp; count := count l + 1 |}
  end.

(** [first()]: [None] is [null]. *)
Definition first (l : t) : option T :=
  match head l with
  | Node data _ => Some data
  | null => None
  end.

(** [remove()]: the list afterwards, and the boolean returned. *)
Definition remove (l : t) : t * bool :=
  match head l with
  | Node _ next => ({| head := next; count := count l - 1 |}, true)
  | null => (l, false)
  end.

Definition size (l : t) : Z := count l.

(** The [while] loop of [toString()], [s] being the variable [str]. *)
Fixpoint toString_loop (current : NodeRef) (s : str) : str :=
  match current with
  | null => s
  | Node data next => toString_loop next (s ++ (toStr data ++ JSString.lit " "))
  end.

Definition toString (l : t) : str :=
  let s := toString_loop (head l) [] in
  JSString.substr s 0 (JSString.length s - 1).

(** One call of the iterator's [next()]: the pair [(done, value)] and the
    new value of the captured variable [current]. *)
Definition iterator_next (current : NodeRef) : (bool * option T) * NodeRef :=
  match current with
  | null => ((true, None), null)
  | Node data next => ((false, Some data), next)
  end.

(** Driving an iterator to exhaustion ([for .. of], [Array.from]). *)
Fixpoint drain (current : NodeRef) : list T :=
  match current with
  | null => []
  | Node data next => data :: drain next
  end.

(** [Array.from(l)]: [Symbol.iterator] starts at [head]. *)
Definition iterate (l : t) : list T := drain (head l).


(** A mutating call on the list, and a sequence of such calls. *)
Inductive op : Type :=
  | Insert (element : T)
  | RemoveFirst.

Definition step (l : t) (o : op) : t :=
  match o with
  | Insert element => insert l element
  | RemoveFirst => (remove l).1
  end.

Definition run (l : t) (ops : list op) : t := foldl step l ops.

End LinkedList.
End LinkedList.

Arguments LinkedList.NodeRef : clear implicits.
Arguments LinkedList.t : clear implicits.
Arguments LinkedList.op : clear implicits.

(** ** [class DependencyGraph<T>] *)

Module DependencyGraph.

(** *** [Map<T, Set<T>>] and [Set<T>] in insertion order *)
Section Containers.
Context {T : Type} `{EqDecision T}.

(** [s.add(x)]: a new element goes last, a present one stays where it is. *)
Definition set_add (s : list T) (x : T) : list T :=
  if decide (x ∈ s) then s else s ++ [x].

(** [m.get(k)]: [None] is [undefined]. *)
Fixpoint map_get (m : list (T * list T)) (k : T) : option (list T) :=
  match m with
  | [] => None
  | (k', v) :: m' => if decide (k' = k) then Some v else map_get m' k
  end.

(** [m.has(k)] *)
Definition map_has (m : list (T * list T)) (k : T) : bool :=
  match map_get m k with Some _ => true | None => false end.

(** [m.set(k, v)]: a present key keeps its place, a new one goes last. *)
Fixpoint map_set (m : list (T * list T)) (k : T) (v : list T) : list (T * list T) :=
  match m with
  | [] => [(k, v)]
  | (k', v') :: m' =>
      if decide (k' = k) then (k, v) :: m' else (k', v') :: map_set m' k v
  end.

(** [m.delete(k)]: the map afterwards, and the boolean returned. *)
Fixpoint map_delete (m : list (T * list T)) (k : T) : list (T * list T) * bool :=
  match m with
  | [] => ([], false)
  | (k', v') :: m' =>
      if decide (k' = k) then (m', true)
      else let '(m'', b) := map_delete m' k in ((k', v') :: m'', b)
  end.

(** [m.keys()] *)
Definition map_keys (m : list (T * list T)) : list T := m.*1.

(** A [for (let d of ds)] loop whose body updates the state [st] and may
    throw. *)
Fixpoint for_of {S : Type} (ds : list T) (st : S) (body : T → S → res S) : res S :=
  match ds with
  | [] => Ret st
  | d :: ds' => st' ← body d st; for_of ds' st' body
  end.
End Containers.

(** *** The two comparisons of items

    [Map.has], [Map.get], [Set.add] and [Set.has] compare keys by
    SameValueZero, which is the equality of the item type [T]. The cycle
    check compares with [==] instead; [loose_eq] is that comparison on
    [T]. *)
Class LooseEq (T : Type) : Type := loose_eq : T → T → bool.

(** The item types on which [==] answers exactly as the key comparison
    does. *)
Class LooseEqExact (T : Type) `{LooseEq T} : Prop :=
  loose_eq_exact : ∀ x y : T, loose_eq x y = true ↔ x = y.

(** On strings [==] compares the characters. *)
Global Instance str_loose_eq : LooseEq str := λ x y, bool_decide (x = y).

Global Instance str_loose_eq_exact : LooseEqExact str.
Proof. intros x y. apply bool_decide_eq_true. Qed.

(** Numbers, as far as the comparisons tell them apart: an integer value,
    or [NaN]. As a key [NaN] is equal to itself; under [==] it is equal to
    nothing, itself included. *)
Inductive number : Type :=
  | Num (z : Z)
  | NaN.

Global Instance number_eq_dec : EqDecision number.
Proof. solve_decision. Defined.

Global Instance number_countable : Countable number.
Proof.
  refine (inj_countable'
            (λ n, match n with Num z => Some z | NaN => None end)
            (λ o, match o with Some z => Num z | None => NaN end) _).
  by intros [].
Defined.

Global Instance number_loose_eq : LooseEq number := λ x y,
  match x, y with
  | Num a, Num b => bool_decide (a = b)
  | _, _ => false
  end.

Section DependencyGraph.
Context {T : Type} `{Countable T} `{LooseEq T}.
(** [node.toString()] *)
Context (toStr : T → str).

Record t : Type := mk { relationships : list (T * list T); _size : Z }.

(** [constructor()] *)
Definition new : t := {| relationships := []; _size := 0 |}.

(** [contains(node)] *)
Definition contains (g : t) (node : T) : bool :=
  map_has (relationships g) node.

(** [add(node)] *)
Definition add (g : t) (node : T) : t :=
  if negb (contains g node)
  then {| relationships := map_set (relationships g) node [];
          _size := _size g + 1 |}
  else g.

(** [remove(node)] *)
Definition remove (g : t) (node : T) : t :=
  let '(m, deleted) := map_delete (relationships g) node in
  if deleted then {| relationships := m; _size := _size g - 1 |} else g.

(** [size()] *)
Definition size (g : t) : Z := _size g.

(** [getAdjacentNodes(node)]: the result of [Map.get], [None] being
    [undefined]. *)
Definition getAdjacentNodes (g : t) (node : T) : option (list T) :=
  map_get (relationships g) node.

(** [hasDependents(node)] *)
Definition hasDependents (g : t) (node : T) : bool :=
  contains g node &&
  match map_get (relationships g) node with
  | Some s => negb (Z.of_nat (length s) =? 0)%Z
  | None => false
  end.

(** [getDependents(node, true)], the items the returned iterable yields:
    [[]] for an absent node, otherwise the keys of its set. The two
    traversals below only ever call [getDependents] this way. *)
Definition getDependents_shallow (g : t) (node : T) : list T :=
  if negb (map_has (relationships g) node) then []
  else default [] (map_get (relationships g) node).

(** [traverse(current, node, visited)]: the set [visited] afterwards, or
    the error thrown. *)
Fixpoint traverse (fuel : nat) (g : t) (current node : T) (visited : gset T)
    : res (gset T) :=
  match fuel with
  | O => OutOfFuel
  | S fuel' =>
      let visited := {[current]} ∪ visited in
      let dependents := getDependents_shallow g current in
      for_of dependents visited (λ d visited,
        if loose_eq d node then Raise CircularDependency
        else if decide (d ∈ visited) then Ret visited
        else traverse fuel' g d node visited)
  end.

(** [getTopologicalDependents(node, visited, list)]: [visited] and [list]
    are shared objects that the recursive calls mutate, so both are
    threaded through. *)
Fixpoint getTopologicalDependents (fuel : nat) (g : t) (node : T)
    (visited : gset T) (list : LinkedList.t T) : res (gset T * LinkedList.t T) :=
  match fuel with
  | O => OutOfFuel
  | S fuel' =>
      let visited := {[node]} ∪ visited in
      let dependents := getDependents_shallow g node in
      st ← for_of dependents (visited, list) (λ d st,
        if decide (d ∈ st.1) then Ret st
        else getTopologicalDependents fuel' g d st.1 st.2);
      Ret (st.1, LinkedList.insert st.2 node)
  end.

(** All the items that sit in some set of the map, with repetitions: a
    traversal never nests deeper than their number plus one, so the methods
    below start their traversals with that much fuel. *)
Definition dependents_of (g : t) : list T := mjoin (relationships g).*2.

Definition depth_bound (g : t) : nat := S (length (dependents_of g)).

(** [addDependency(from, to)]: the graph afterwards (mutated whether or
    not the call throws) and the outcome of the call. [Map.get] cannot
    answer [undefined] after [add(from)]; if it did, reading [.add] of it
    would throw a [TypeError]. *)
Definition addDependency (g : t) (from to : T) : t * res () :=
  let g := add g from in
  let g := add g to in
  match map_get (relationships g) from with
  | None => (g, Raise TypeError)
  | Some s =>
      let g := {| relationships := map_set (relationships g) from (set_add s to);
                  _size := _size g |} in
      (g, _ ← traverse (depth_bound g) g from from ∅; Ret ())
  end.

(** [getDependents(node, shallow)], the items the returned iterable
    yields. *)
Definition getDependents (g : t) (node : T) (shallow : bool) : res (list T) :=
  if negb (map_has (relationships g) node) then Ret []
  else if shallow then Ret (default [] (map_get (relationships g) node))
  else
    st ← getTopologicalDependents (depth_bound g) g node ∅ LinkedList.new;
    let list := (LinkedList.remove st.2).1 in
    Ret (LinkedList.iterate list).

(** [getNodes()] *)
Definition getNodes (g : t) : list T := map_keys (relationships g).

(** [getTopologicalSort()] *)
Definition getTopologicalSort (g : t) : res (LinkedList.t T) :=
  st ← for_of (getNodes g) (∅, LinkedList.new) (λ node st,
    if decide (node ∈ st.1) then Ret st
    else getTopologicalDependents (depth_bound g) g node st.1 st.2);
  Ret st.2.

(** [toString()] *)
Definition toString (g : t) : str :=
  foldl (λ result from,
    foldl (λ result to,
      result ++ (toStr from ++ JSString.lit "->" ++ toStr to ++ ["010"%char]))
      result (getDependents_shallow g from))
    [] (getNodes g).

End DependencyGraph.

Arguments t : clear implicits.

(** *** The stored relation, and sequences of calls *)
Section Relation.
Context {T : Type} `{Countable T} `{LooseEq T}.

(** [to] is a direct dependent of [from]: it is one of the items that
    [getDependents(from, true)] yields. *)
Definition edge (g : t T) (from to : T) : Prop :=
  to ∈ getDependents_shallow g from.

(** No directed cycle; a self-loop is a cycle of length one. *)
Definition acyclic (g : t T) : Prop := ∀ x, ¬ tc (edge g) x x.

(** [a] comes strictly before [b] in [l]. *)
Definition before (l : list T) (a b : T) : Prop :=
  ∃ l1 l2 l3, l = l1 ++ a :: l2 ++ b :: l3.

(** A mutating call on the graph. *)
Inductive op : Type :=
  | Add (node : T)
  | Remove (node : T)
  | AddDependency (from to : T).

Definition step (g : t T) (o : op) : t T * res () :=
  match o with
  | Add node => (add g node, Ret ())
  | Remove node => (remove g node, Ret ())
  | AddDependency from to => addDependency g from to
  end.

(** A caller that performs [ops] one after the other and catches every
    error: the graph at the end, and the outcome of each call. *)
Fixpoint run (g : t T) (ops : list op) : t T * list (res ()) :=
  match ops with
  | [] => (g, [])
  | o :: ops' =>
      let '(g', r) := step g o in
      let '(g'', rs) := run g' ops' in
      (g'', r :: rs)
  end.
End Relation.

Arguments op : clear implicits.

(** *** Notions the properties are stated with *)
Section Notions.
Context {T : Type} `{Countable T} `{LooseEq T}.
Implicit Types (g : t T) (node from to : T) (items : list T).

(** The items a traversal can recurse into. *)
Definition reachable_items (g : t T) : gset T := list_to_set (dependents_of g).

(** The body of the [for] loop of [traverse]. *)
Definition traverse_body (fuel : nat) g node : T → gset T → res (gset T) :=
  λ d visited,
    if loose_eq d node then Raise CircularDependency
    else if decide (d ∈ visited) then Ret visited
    else traverse fuel g d node visited.

(** The body of the [for] loop of [getTopologicalDependents]. *)
Definition topological_body (fuel : nat) g
    : T → gset T * LinkedList.t T → res (gset T * LinkedList.t T) :=
  λ d st,
    if decide (d ∈ st.1) then Ret st
    else getTopologicalDependents fuel g d st.1 st.2.

(** Some directed cycle passes through [from]: [from] is reachable, in
    one or more steps, from one of its own direct dependents. *)
Definition on_cycle g from : Prop :=
  ∃ d, edge g from d ∧ tc (edge g) d from.

(** The keys of the map are distinct; every graph built by the methods
    has this property. *)
Definition keys_distinct g : Prop := NoDup (getNodes g).

(** [addDependency]: the graph once both endpoints are present and [to]
    sits in the set of [from]. *)
Definition with_dependency g from to : t T :=
  let g2 := add (add g from) to in
  {| relationships :=
       map_set (relationships g2) from (set_add (getDependents_shallow g2 from) to);
     _size := _size g2 |}.

(** Every item of the sequence has all its direct dependents further
    down the sequence. *)
Fixpoint ordered g items : Prop :=
  match items with
  | [] => True
  | x :: items' => (∀ y, edge g x y → y ∈ items') ∧ ordered g items'
  end.

(** Set semantics: no set of the map holds an item twice. *)
Definition sets_distinct g : Prop :=
  Forall (λ kv, NoDup kv.2) (relationships g).

End Notions.


(** The two delimiters of the textual form. *)
Definition arrow : str := JSString.lit "->".
Definition newline : str := ["010"%char].

(** An identifier the textual form can carry: it contains neither the arrow
    nor a newline. *)
Definition identifier_ok (x : str) : bool :=
  negb (JSString.includes x arrow) && negb (JSString.includes x newline).

(** The identifiers of a graph: its nodes and the members of their sets. *)
Definition identifiers (g : t str) : list str := getNodes g ++ dependents_of g.

(** [static Generate(str)]: the [while] loop, with the variables [graph],
    [start] and [index]. A thrown error leaves [Generate] at once. *)
Fixpoint Generate_loop (fuel : nat) (s : str) (graph : t str) (start index : Z)
    : res (t str) :=
  if (index >? 0)%Z then
    match fuel with
    | O => OutOfFuel
    | S fuel' =>
        let from := JSString.substring s start index in
        let start := (index + 1)%Z in
        let index := JSString.indexOf s newline index in
        let to := JSString.substring s (start + 1) index in
        let '(graph, r) := addDependency graph from to in
        _ ← r;
        let start := (index + 1)%Z in
        let index := JSString.indexOf s arrow start in
        Generate_loop fuel' s graph start index
    end
  else Ret graph.

Definition Generate (fuel : nat) (s : str) : res (t str) :=
  Generate_loop fuel s new 0 (JSString.indexOf s arrow 0).

(** The pairs [(from, to)] in the order in which [toString] visits them. *)
Definition edges_list (g : t str) : list (str * str) :=
  mjoin ((λ from, (λ to, (from, to)) <$> getDependents_shallow g from) <$> getNodes g).

(** The line of one pair. *)
Definition line (e : str * str) : str := e.1 ++ arrow ++ e.2 ++ newline.

(** [addDependency] called for each pair in turn, leaving at the first
    error: what [Generate] does once the text is cut into pairs. *)
Fixpoint addDependencies (g : t str) (es : list (str * str)) : res (t str) :=
  match es with
  | [] => Ret g
  | e :: es' =>
      let '(g', r) := addDependency g e.1 e.2 in
      _ ← r; addDependencies g' es'
  end.

(** The relation that a list of pairs spells out. *)
Definition pairs_rel (es : list (str * str)) (a b : str) : Prop := (a, b) ∈ es.

(** *** Three graphs over strings *)

(** [a -> b] then [b -> a]: the second call throws and its pair stays. *)
Definition two_cycle : t str :=
  (run new [AddDependency (JSString.lit "a") (JSString.lit "b");
            AddDependency (JSString.lit "b") (JSString.lit "a")]).1.

(** [a -> b], [a -> c], [c -> d], [d -> b], and a node [e] of its own. *)
Definition diamond : t str :=
  (run new [AddDependency (JSString.lit "a") (JSString.lit "b");
            AddDependency (JSString.lit "a") (JSString.lit "c");
            AddDependency (JSString.lit "c") (JSString.lit "d");
            AddDependency (JSString.lit "d") (JSString.lit "b");
            Add (JSString.lit "e")]).1.

(** [a -> b], then [b] removed: [b] still sits in the set of [a]. *)
Definition dangling : t str :=
  (run new [AddDependency (JSString.lit "a") (JSString.lit "b");
            Remove (JSString.lit "b")]).1.

End DependencyGraph.

(** * Properties of the linked list *)

Module LinkedListFacts.
Section LinkedListFacts.
Context {T : Type} (toStr : T → str).
Implicit Types (l : LinkedList.t T) (current : LinkedList.NodeRef T).

Local Abbreviation space := (JSString.lit " ").

(** [drain] is what repeated calls of [next()] produce. *)
Lemma drain_next current :
  LinkedList.drain current =
    match LinkedList.iterator_next current with
    | ((true, _), _) => []
    | ((false, value), current') =>
        from_option (λ v, [v]) [] value ++ LinkedList.drain current'
    end.
Proof. by destruct current. Qed.

Lemma iterate_insert l x :
  LinkedList.iterate (LinkedList.insert l x) = x :: LinkedList.iterate l.
Proof.
  unfold LinkedList.iterate, LinkedList.insert.
  by destruct (LinkedList.head l).
Qed.







(** ** Counting, and the list as a stack *)

Lemma list_size_step l (o : LinkedList.op T) :
  LinkedList.size l = Z.of_nat (length (LinkedList.iterate l)) →
  LinkedList.size (LinkedList.step l o) =
    Z.of_nat (length (LinkedList.iterate (LinkedList.step l o))).
Proof.
  unfold LinkedList.size, LinkedList.iterate. destruct l as [h n].
  destruct o as [x|]; simpl.
  - intros ->. destruct h; simpl; lia.
  - intros ->. destruct h; simpl; lia.
Qed.

(** X1. Whatever sequence of [insert] and [remove] calls is made on a
    fresh list, [size()] is the number of items that iteration yields; a
    [remove] on the empty list changes nothing. *)
Theorem size_counts_items (ops : list (LinkedList.op T)) :
  LinkedList.size (LinkedList.run LinkedList.new ops) =
    Z.of_nat (length (LinkedList.iterate (LinkedList.run LinkedList.new ops))).
Proof.
  unfold LinkedList.run.
  assert (LinkedList.size (LinkedList.new (T:=T)) =
            Z.of_nat (length (LinkedList.iterate (LinkedList.new (T:=T))))) as H0
    by done.
  revert H0. generalize (LinkedList.new (T:=T)) as l.
  induction ops as [|o ops IH]; intros l Hl; [done|].
  cbn [foldl]. apply IH. by apply list_size_step.
Qed.

(** X2. The list is a stack: right after [insert(x)], [first()] is [x],
    and [remove()] returns [true] and gives back the list as it was before
    the insertion, items and count. *)
Theorem insert_then_remove l x :
  LinkedList.first (LinkedList.insert l x) = Some x ∧
  LinkedList.remove (LinkedList.insert l x) = (l, true).
Proof.
  destruct l as [h n]. unfold LinkedList.first, LinkedList.remove, LinkedList.insert.
  destruct h; simpl; (split; [done|]); do 2 f_equal; lia.
Qed.

End LinkedListFacts.
End LinkedListFacts.

(** * Properties of the dependency graph *)

Module DependencyGraphFacts.
Import DependencyGraph.

Local Abbreviation card := (stdpp.base.size).

(** ** The containers *)
Section ContainerFacts.
Context {T : Type} `{EqDecision T}.
Implicit Types (m : list (T * list T)) (k d : T) (ds : list T).

Lemma map_get_Some m k (s : list T) : map_get m k = Some s → (k, s) ∈ m.
Proof.
  induction m as [|[k' v] m IH]; simpl; [done|].
  case_decide; intros ?; simplify_eq; [left | right; auto].
Qed.

Lemma map_has_true m k : map_has m k = true ↔ is_Some (map_get m k).
Proof.
  unfold map_has. destruct (map_get m k); split; intros Hs; done.
Qed.

Lemma map_has_false m k : map_has m k = false ↔ map_get m k = None.
Proof. unfold map_has. by destruct (map_get m k). Qed.

Lemma map_get_None m k : map_get m k = None ↔ k ∉ map_keys m.
Proof.
  unfold map_keys. induction m as [|[k' v] m IH]; simpl.
  - split; [intros _; apply not_elem_of_nil | done].
  - rewrite not_elem_of_cons.
    destruct (decide (k' = k)) as [->|Hne]; [naive_solver|].
    rewrite IH. naive_solver.
Qed.

Lemma map_get_set m k k' v :
  map_get (map_set m k v) k' = if decide (k = k') then Some v else map_get m k'.
Proof.
  induction m as [|[k0 v0] m IH]; simpl.
  - by case_decide.
  - destruct (decide (k0 = k)) as [->|Hne]; simpl.
    + destruct (decide (k = k')); done.
    + rewrite IH. destruct (decide (k0 = k')) as [->|]; [|done].
      by rewrite decide_False.
Qed.

Lemma map_keys_set m k v :
  map_keys (map_set m k v) =
    if decide (k ∈ map_keys m) then map_keys m else map_keys m ++ [k].
Proof.
  unfold map_keys. induction m as [|[k0 v0] m IH].
  - done.
  - cbn [map_set]. destruct (decide (k0 = k)) as [->|Hne].
    + rewrite !fmap_cons. cbn [fst]. rewrite decide_True; [done | left].
    + rewrite !fmap_cons, IH. cbn [fst]. destruct (decide (k ∈ m.*1)).
      * rewrite decide_True; [done | by right].
      * rewrite decide_False; [done|]. rewrite not_elem_of_cons. naive_solver.
Qed.

Lemma map_keys_delete m k x :
  x ∈ map_keys (map_delete m k).1 → x ∈ map_keys m.
Proof.
  unfold map_keys. induction m as [|[k0 v0] m IH]; simpl; [done|].
  destruct (decide (k0 = k)) as [->|Hne]; simpl; [by right|].
  destruct (map_delete m k) as [m' b]. simpl in *.
  rewrite !elem_of_cons. naive_solver.
Qed.

Lemma map_keys_delete_NoDup m k :
  NoDup (map_keys m) → NoDup (map_keys (map_delete m k).1).
Proof.
  induction m as [|[k0 v0] m IH]; simpl; [done|].
  unfold map_keys in *. simpl. rewrite NoDup_cons. intros [Hk0 Hnd].
  destruct (decide (k0 = k)) as [->|Hne]; simpl; [done|].
  specialize (IH Hnd). pose proof (map_keys_delete m k k0) as Hsub.
  unfold map_keys in Hsub.
  destruct (map_delete m k) as [m' b]. simpl in *.
  apply NoDup_cons. naive_solver.
Qed.

Lemma map_get_delete m k k' :
  NoDup (map_keys m) →
  map_get (map_delete m k).1 k' = if decide (k = k') then None else map_get m k'.
Proof.
  unfold map_keys. induction m as [|[k0 v0] m IH]; simpl.
  - by case_decide.
  - rewrite NoDup_cons. intros [Hk0 Hnd].
    destruct (decide (k0 = k)) as [->|Hne]; simpl.
    + destruct (decide (k = k')) as [->|]; [|done].
      by apply map_get_None.
    + specialize (IH Hnd). destruct (map_delete m k) as [m' b]. simpl in *.
      rewrite IH. destruct (decide (k0 = k')) as [->|]; [|done].
      by rewrite decide_False.
Qed.

Lemma map_delete_false m k : (map_delete m k).2 = false → (map_delete m k).1 = m.
Proof.
  induction m as [|[k0 v0] m IH]; simpl; [done|].
  case_decide; [done|]. destruct (map_delete m k) as [m' b]. simpl in *.
  intros ->. by rewrite IH.
Qed.

Lemma set_add_elem (s : list T) x y : y ∈ set_add s x ↔ y = x ∨ y ∈ s.
Proof.
  unfold set_add. case_decide; [|rewrite elem_of_app, list_elem_of_singleton];
    naive_solver.
Qed.

(** *** Reasoning about [for .. of] loops *)

Lemma bind_Ret {A B} (a : A) (k : A → res B) : Ret a ≫= k = k a.
Proof. done. Qed.

Lemma bind_Ret_inv {A B} (m : res A) (k : A → res B) b :
  m ≫= k = Ret b → ∃ a, m = Ret a ∧ k a = Ret b.
Proof. destruct m; [eauto|done..]. Qed.

Lemma bind_Raise_inv {A B} (m : res A) (k : A → res B) e :
  m ≫= k = Raise e → m = Raise e ∨ ∃ a, m = Ret a ∧ k a = Raise e.
Proof. destruct m; [eauto| |done]. intros [= ->]. by left. Qed.

Lemma for_of_cons {S} d ds (st : S) body :
  for_of (d :: ds) st body = body d st ≫= λ st', for_of ds st' body.
Proof. done. Qed.

(** A loop that returns: an invariant [I done st], [done] being the items
    already handled, holds at the end. *)
Lemma for_of_Ret {S} (I : list T → S → Prop) ds (st st' : S) body :
  I [] st →
  (∀ pre d post s s', ds = pre ++ d :: post →
     I pre s → body d s = Ret s' → I (pre ++ [d]) s') →
  for_of ds st body = Ret st' → I ds st'.
Proof.
  revert I st. induction ds as [|d ds IH]; intros I st H0 Hstep.
  - by intros [= <-].
  - rewrite for_of_cons. intros (s1 & Hd & Hrest)%bind_Ret_inv.
    apply (IH (λ pre, I (d :: pre)) s1); [| |done].
    + apply (Hstep [] d ds st s1); done.
    + intros pre d' post s s' -> Hpre Hbody.
      apply (Hstep (d :: pre) d' post s s'); done.
Qed.

(** A loop that throws: some iteration threw, the invariant holding
    before it. *)
Lemma for_of_Raise {S} (I : list T → S → Prop) ds (st : S) body e :
  I [] st →
  (∀ pre d post s s', ds = pre ++ d :: post →
     I pre s → body d s = Ret s' → I (pre ++ [d]) s') →
  for_of ds st body = Raise e →
  ∃ pre d post s, ds = pre ++ d :: post ∧ I pre s ∧ body d s = Raise e.
Proof.
  revert I st. induction ds as [|d ds IH]; intros I st H0 Hstep; [done|].
  rewrite for_of_cons. intros [Hd|(s1 & Hd & Hrest)]%bind_Raise_inv.
  - by exists [], d, ds, st.
  - destruct (IH (λ pre, I (d :: pre)) s1) as (pre & d' & post & s & -> & ? & ?);
      [| |done|].
    + apply (Hstep [] d ds st s1); done.
    + intros pre d' post s s' -> Hpre Hbody.
      apply (Hstep (d :: pre) d' post s s'); done.
    + by exists (d :: pre), d', post, s.
Qed.

(** A loop runs out of fuel only if some iteration does. *)
Lemma for_of_fuel {S} (I : list T → S → Prop) ds (st : S) body :
  I [] st →
  (∀ pre d post s s', ds = pre ++ d :: post →
     I pre s → body d s = Ret s' → I (pre ++ [d]) s') →
  (∀ pre d post s, ds = pre ++ d :: post → I pre s → body d s ≠ OutOfFuel) →
  for_of ds st body ≠ OutOfFuel.
Proof.
  revert I st. induction ds as [|d ds IH]; intros I st H0 Hstep Hfuel; [done|].
  rewrite for_of_cons.
  destruct (body d st) as [s1| |] eqn:Hd; [|done|].
  - rewrite bind_Ret. apply (IH (λ pre, I (d :: pre)) s1).
    + apply (Hstep [] d ds st s1); done.
    + intros pre d' post s s' -> Hpre Hbody.
      apply (Hstep (d :: pre) d' post s s'); done.
    + intros pre d' post s -> Hpre.
      apply (Hfuel (d :: pre) d' post s); done.
  - by destruct (Hfuel [] d ds st).
Qed.
End ContainerFacts.

(** ** Termination of the two traversals *)
Section Termination.
Context {T : Type} `{Countable T} `{LooseEq T}.
Implicit Types (g : t T) (visited : gset T) (d node current : T).

Lemma getDependents_shallow_Some g node s :
  map_get (relationships g) node = Some s → getDependents_shallow g node = s.
Proof.
  intros Hs. unfold getDependents_shallow, map_has. by rewrite Hs.
Qed.

Lemma getDependents_shallow_None g node :
  map_get (relationships g) node = None → getDependents_shallow g node = [].
Proof.
  intros Hs. unfold getDependents_shallow, map_has. by rewrite Hs.
Qed.

Lemma edge_reachable_items g node d :
  edge g node d → d ∈ reachable_items g.
Proof.
  unfold edge, reachable_items, dependents_of. intros Hd.
  destruct (map_get (relationships g) node) as [s|] eqn:Hs.
  - rewrite (getDependents_shallow_Some _ _ _ Hs) in Hd.
    apply elem_of_list_to_set, list_elem_of_join. exists s. split; [done|].
    apply list_elem_of_fmap. exists (node, s). split; [done|].
    by apply map_get_Some.
  - rewrite (getDependents_shallow_None _ _ Hs) in Hd. by apply elem_of_nil in Hd.
Qed.

Lemma card_list_to_set (l : list T) : card (list_to_set (C:=gset T) l) ≤ length l.
Proof.
  induction l as [|x l IH]; cbn [list_to_set foldr length].
  - by rewrite size_empty.
  - rewrite size_union_alt, size_singleton.
    assert (list_to_set l ∖ {[x]} ⊆ list_to_set (C:=gset T) l) as Hsub
      by set_solver.
    apply subseteq_size in Hsub. lia.
Qed.

Lemma card_reachable_items g : card (reachable_items g) < depth_bound g.
Proof.
  unfold depth_bound, reachable_items.
  pose proof (card_list_to_set (dependents_of g)). lia.
Qed.

(** Marking an unvisited reachable item leaves fewer of them unmarked. *)
Lemma card_unvisited_lt g visited d :
  d ∈ reachable_items g → d ∉ visited →
  card (reachable_items g ∖ ({[d]} ∪ visited)) < card (reachable_items g ∖ visited).
Proof. intros Hd Hv. apply subset_size. set_solver. Qed.

Lemma card_unvisited_mono g visited visited' :
  visited ⊆ visited' →
  card (reachable_items g ∖ visited') ≤ card (reachable_items g ∖ visited).
Proof. intros Hsub. apply subseteq_size. set_solver. Qed.

(** *** [traverse] *)

Lemma traverse_S fuel g current node visited :
  traverse (S fuel) g current node visited =
    for_of (getDependents_shallow g current) ({[current]} ∪ visited)
      (traverse_body fuel g node).
Proof. done. Qed.

(** A traversal that returns has only added marks. *)
Lemma traverse_visited_mono fuel g current node visited visited' :
  traverse fuel g current node visited = Ret visited' →
  {[current]} ∪ visited ⊆ visited'.
Proof.
  revert current visited visited'.
  induction fuel as [|fuel IH]; intros current visited visited'; [done|].
  rewrite traverse_S.
  apply (for_of_Ret (λ _ v, {[current]} ∪ visited ⊆ v)); [done|].
  intros _ d _ v v' _ Hv. unfold traverse_body.
  destruct (loose_eq d node); [done|].
  destruct (decide (d ∈ v)); [by intros [= <-]|].
  intros Hd%IH. set_solver.
Qed.

Lemma traverse_enough_fuel fuel g current node visited :
  card (reachable_items g ∖ ({[current]} ∪ visited)) < fuel →
  traverse fuel g current node visited ≠ OutOfFuel.
Proof.
  revert current visited.
  induction fuel as [|fuel IH]; intros current visited Hlt; [lia|].
  rewrite traverse_S.
  apply (for_of_fuel (λ _ v, card (reachable_items g ∖ v) ≤ fuel)); [lia| |].
  - intros _ d _ v v' _ Hv. unfold traverse_body.
    destruct (loose_eq d node); [done|].
    destruct (decide (d ∈ v)); [by intros [= <-]|].
    intros Hd%traverse_visited_mono.
    etrans; [apply (card_unvisited_mono g v v'); set_solver | done].
  - intros pre d post v Hds Hv. unfold traverse_body.
    destruct (loose_eq d node); [done|].
    destruct (decide (d ∈ v)); [done|].
    apply IH. eapply Nat.lt_le_trans; [|exact Hv].
    apply card_unvisited_lt; [|done].
    apply (edge_reachable_items g current). unfold edge. rewrite Hds.
    set_solver.
Qed.

(** *** [getTopologicalDependents] *)

Lemma getTopologicalDependents_S fuel g node visited list :
  getTopologicalDependents (S fuel) g node visited list =
    st ← for_of (getDependents_shallow g node) ({[node]} ∪ visited, list)
            (topological_body fuel g);
    Ret (st.1, LinkedList.insert st.2 node).
Proof. done. Qed.

(** This traversal has no [throw]. *)
Lemma getTopologicalDependents_never_raises fuel g node visited list e :
  getTopologicalDependents fuel g node visited list ≠ Raise e.
Proof.
  revert node visited list.
  induction fuel as [|fuel IH]; intros node visited list; [done|].
  rewrite getTopologicalDependents_S.
  intros [Hloop|(st & _ & [=])]%bind_Raise_inv.
  apply (for_of_Raise (λ _ _, True)) in Hloop as (_ & d & _ & st & _ & _ & Hd);
    [|done..].
  unfold topological_body in Hd.
  destruct (decide (d ∈ st.1)); [done|]. by apply IH in Hd.
Qed.

Lemma getTopologicalDependents_visited_mono fuel g node visited list st :
  getTopologicalDependents fuel g node visited list = Ret st →
  {[node]} ∪ visited ⊆ st.1.
Proof.
  revert node visited list st.
  induction fuel as [|fuel IH]; intros node visited list st; [done|].
  rewrite getTopologicalDependents_S.
  intros (st1 & Hloop & [= <-])%bind_Ret_inv. simpl.
  revert Hloop.
  apply (for_of_Ret (λ _ s, {[node]} ∪ visited ⊆ s.1)); [done|].
  intros _ d _ s s' _ Hs. unfold topological_body.
  destruct (decide (d ∈ s.1)); [by intros [= <-]|].
  intros Hd%IH. set_solver.
Qed.

Lemma getTopologicalDependents_enough_fuel fuel g node visited list :
  card (reachable_items g ∖ ({[node]} ∪ visited)) < fuel →
  getTopologicalDependents fuel g node visited list ≠ OutOfFuel.
Proof.
  revert node visited list.
  induction fuel as [|fuel IH]; intros node visited list Hlt; [lia|].
  rewrite getTopologicalDependents_S.
  destruct (for_of _ _ _) as [st| |] eqn:Hloop; [done|done|].
  exfalso. revert Hloop.
  apply (for_of_fuel (λ _ s, card (reachable_items g ∖ s.1) ≤ fuel));
    [simpl; lia| |].
  - intros _ d _ s s' _ Hs. unfold topological_body.
    destruct (decide (d ∈ s.1)); [by intros [= <-]|].
    intros Hd%getTopologicalDependents_visited_mono.
    etrans; [apply (card_unvisited_mono g s.1 s'.1); set_solver | done].
  - intros pre d post s Hds Hs. unfold topological_body.
    destruct (decide (d ∈ s.1)); [done|].
    apply IH. eapply Nat.lt_le_trans; [|exact Hs].
    apply card_unvisited_lt; [|done].
    apply (edge_reachable_items g node). unfold edge. rewrite Hds.
    set_solver.
Qed.

(** C8. On every graph state, cyclic or not, and whatever is already
    marked, the cycle check [traverse] and the topological traversal
    [getTopologicalDependents] come to an end: with more fuel than there
    are unmarked items to recurse into, neither runs out of it. The bound
    holds because a call marks its node and recurses only into unmarked
    items. *)
Theorem traversals_terminate fuel g current node visited list :
  card (reachable_items g ∖ ({[current]} ∪ visited)) < fuel →
  traverse fuel g current node visited ≠ OutOfFuel ∧
  getTopologicalDependents fuel g current visited list ≠ OutOfFuel.
Proof.
  intros Hlt. split.
  - by apply traverse_enough_fuel.
  - by apply getTopologicalDependents_enough_fuel.
Qed.

End Termination.

(** ** The cycle check *)
Section CycleCheck.
Context {T : Type} `{Countable T} `{LooseEq T} `{!LooseEqExact T}.
Implicit Types (g : t T) (visited : gset T) (d node current from to : T).

(** A throw of [traverse] is the circular-dependency error, and it means
    that an item reachable from [current] has [node] among its direct
    dependents. *)
Lemma traverse_Raise fuel g current node visited e :
  traverse fuel g current node visited = Raise e →
  e = CircularDependency ∧ ∃ x, rtc (edge g) current x ∧ edge g x node.
Proof.
  revert current visited.
  induction fuel as [|fuel IH]; intros current visited; [done|].
  rewrite traverse_S. intros Hloop.
  apply (for_of_Raise (λ _ _, True)) in Hloop
    as (pre & d & post & v & Hds & _ & Hd); [|done..].
  assert (edge g current d) as Hedge.
  { unfold edge. rewrite Hds. set_solver. }
  unfold traverse_body in Hd.
  destruct (loose_eq d node) eqn:Heq.
  - apply loose_eq_exact in Heq as ->. injection Hd as <-. split; [done|]. by exists current.
  - destruct (decide (d ∈ v)); [done|].
    apply IH in Hd as [-> (x & Hx & Hnode)]. split; [done|].
    exists x. split; [|done]. by eapply rtc_l.
Qed.

(** A return of [traverse]: every newly marked item has all its direct
    dependents marked, and none of them is [node]. *)
Lemma traverse_Ret fuel g current node visited visited' :
  traverse fuel g current node visited = Ret visited' →
  ∀ x, x ∈ visited' → x ∉ visited →
  ∀ y, edge g x y → y ≠ node ∧ y ∈ visited'.
Proof.
  revert current visited visited'.
  induction fuel as [|fuel IH]; intros current visited visited'; [done|].
  rewrite traverse_S. intros Hloop.
  apply (for_of_Ret (λ pre v,
           {[current]} ∪ visited ⊆ v ∧
           (∀ d, d ∈ pre → d ≠ node ∧ d ∈ v) ∧
           (∀ x, x ∈ v → x ∉ {[current]} ∪ visited →
                 ∀ y, edge g x y → y ≠ node ∧ y ∈ v))) in Hloop.
  - destruct Hloop as (Hsub & Hds & Hclosed).
    intros x Hx Hnx y Hxy.
    destruct (decide (x = current)) as [->|Hne].
    + by apply Hds.
    + apply (Hclosed x); [done|set_solver|done].
  - split; [done|]. split; [by intros d ?%elem_of_nil | set_solver].
  - intros pre d post v v' _ (Hsub & Hds & Hclosed). unfold traverse_body.
    destruct (loose_eq d node) eqn:Heq; [done|].
    assert (d ≠ node) as Hdn
      by (intros Hdn%loose_eq_exact; congruence).
    destruct (decide (d ∈ v)) as [Hdv|Hdv].
    + intros [= <-]. split; [done|]. split; [|done].
      intros d' [?| ->%list_elem_of_singleton]%elem_of_app; [by apply Hds | done].
    + intros Hd. pose proof (traverse_visited_mono _ _ _ _ _ _ Hd) as Hmono.
      pose proof (IH _ _ _ Hd) as Hnew.
      split; [set_solver|]. split.
      * intros d' [Hd'| ->%list_elem_of_singleton]%elem_of_app.
        -- destruct (Hds d' Hd'). set_solver.
        -- split; [done|set_solver].
      * intros x Hx Hnx y Hxy.
        destruct (decide (x ∈ v)) as [Hxv|Hxv].
        -- destruct (Hclosed x Hxv Hnx y Hxy). set_solver.
        -- by apply (Hnew x).
Qed.

Lemma on_cycle_alt g from :
  on_cycle g from ↔ ∃ x, rtc (edge g) from x ∧ edge g x from.
Proof.
  split.
  - intros (d & Hd & Htc).
    apply tc_nsteps in Htc as (n & Hn & Hsteps).
    destruct n as [|n]; [lia|].
    apply nsteps_inv_r in Hsteps as (x & Hsteps & Hx).
    exists x. split; [|done].
    eapply rtc_l; [exact Hd|]. by eapply rtc_nsteps_2.
  - intros (x & Hrtc & Hx).
    apply rtc_inv in Hrtc as [<-|(d & Hd & Hrtc)].
    + exists from. split; [done|]. by apply tc_once.
    + exists d. split; [done|]. eapply tc_rtc_l; [exact Hrtc|]. by apply tc_once.
Qed.

Lemma on_cycle_tc g from : on_cycle g from ↔ tc (edge g) from from.
Proof.
  split.
  - intros (d & Hd & Htc). by eapply tc_l.
  - intros (n & Hn & Hsteps)%tc_nsteps.
    destruct n as [|n]; [lia|].
    apply nsteps_inv_r in Hsteps as (x & Hsteps & Hx).
    apply on_cycle_alt. exists x. split; [|done]. by eapply rtc_nsteps_2.
Qed.

(** A set that contains the direct dependents of its members contains
    everything reachable from them. *)
Lemma rtc_edge_closed g (X : gset T) a b :
  (∀ x y, x ∈ X → edge g x y → y ∈ X) →
  rtc (edge g) a b → a ∈ X → b ∈ X.
Proof. intros Hclosed. induction 1; eauto. Qed.

(** The cycle check started by [addDependency]. *)
Lemma traverse_from_Raise fuel g from e :
  traverse fuel g from from ∅ = Raise e →
  e = CircularDependency ∧ on_cycle g from.
Proof.
  intros [-> Hx]%traverse_Raise. split; [done|]. by apply on_cycle_alt.
Qed.

Lemma traverse_from_Ret fuel g from visited' :
  traverse fuel g from from ∅ = Ret visited' → ¬ on_cycle g from.
Proof.
  intros Hret (x & Hrtc & Hx)%on_cycle_alt.
  pose proof (traverse_visited_mono _ _ _ _ _ _ Hret) as Hmono.
  pose proof (traverse_Ret _ _ _ _ _ _ Hret) as Hclosed.
  assert (x ∈ visited') as Hxv.
  { apply (rtc_edge_closed g visited' from x); [|done|set_solver].
    intros a b Ha Hab. by apply (Hclosed a Ha (not_elem_of_empty a) b). }
  by destruct (Hclosed x Hxv (not_elem_of_empty x) from Hx).
Qed.
End CycleCheck.

(** ** [add], [remove] and [addDependency] *)
Section Mutation.
Context {T : Type} `{Countable T} `{LooseEq T} `{!LooseEqExact T}.
Implicit Types (g : t T) (node from to : T).

Lemma contains_true g node :
  contains g node = true ↔ is_Some (map_get (relationships g) node).
Proof. apply map_has_true. Qed.

Lemma contains_getNodes g node : contains g node = true ↔ node ∈ getNodes g.
Proof.
  unfold contains, getNodes, map_has.
  pose proof (map_get_None (relationships g) node) as Hnone.
  destruct (map_get (relationships g) node); [|naive_solver].
  split; [|done]. intros _.
  destruct (decide (node ∈ map_keys (relationships g))); [done|].
  by apply Hnone in n.
Qed.

Lemma map_get_add g node k :
  map_get (relationships (add g node)) k =
    if decide (node = k ∧ contains g node = false) then Some []
    else map_get (relationships g) k.
Proof.
  unfold add. destruct (contains g node) eqn:Hc; simpl.
  - rewrite decide_False; [done|]. by intros [_ ?].
  - rewrite map_get_set. destruct (decide (node = k)) as [->|].
    + by rewrite decide_True.
    + rewrite decide_False; [done|]. by intros [? _].
Qed.

Lemma contains_add g node x :
  contains (add g node) x = true ↔ contains g x = true ∨ x = node.
Proof.
  rewrite !contains_true, map_get_add.
  destruct (decide (node = x ∧ contains g node = false)) as [[-> _]|Hn].
  - split; [by right | by eexists].
  - split; [by left|]. intros [?| ->]; [done|].
    destruct (contains g node) eqn:Hc; [by apply contains_true|].
    by destruct Hn.
Qed.

Lemma getDependents_shallow_default g node :
  getDependents_shallow g node = default [] (map_get (relationships g) node).
Proof.
  unfold getDependents_shallow, map_has.
  by destruct (map_get (relationships g) node).
Qed.

(** [getDependents_shallow] is [getDependents] called with [shallow = true]. *)
Lemma getDependents_true g node :
  getDependents g node true = Ret (getDependents_shallow g node).
Proof.
  unfold getDependents, getDependents_shallow.
  by destruct (map_has (relationships g) node).
Qed.

Lemma getDependents_shallow_add g node x :
  getDependents_shallow (add g node) x = getDependents_shallow g x.
Proof.
  rewrite !getDependents_shallow_default, map_get_add.
  destruct (decide _) as [[-> Hc]|]; [|done].
  apply map_has_false in Hc. by rewrite Hc.
Qed.

Lemma edge_add g node a b : edge (add g node) a b ↔ edge g a b.
Proof. unfold edge. by rewrite getDependents_shallow_add. Qed.

Lemma getNodes_add g node :
  getNodes (add g node) =
    if contains g node then getNodes g else getNodes g ++ [node].
Proof.
  unfold add. destruct (contains g node) eqn:Hc; simpl; [done|].
  unfold getNodes. simpl. rewrite map_keys_set, decide_False; [done|].
  intros Hin. apply contains_getNodes in Hin. congruence.
Qed.

Lemma keys_distinct_add g node : keys_distinct g → keys_distinct (add g node).
Proof.
  unfold keys_distinct. rewrite getNodes_add.
  destruct (contains g node) eqn:Hc; [done|]. intros Hnd.
  apply NoDup_app. split; [done|]. split; [|apply NoDup_singleton].
  intros x Hx ->%list_elem_of_singleton.
  apply contains_getNodes in Hx. congruence.
Qed.

(** [remove] *)
Lemma map_get_remove g node k :
  keys_distinct g →
  map_get (relationships (remove g node)) k =
    if decide (node = k) then None else map_get (relationships g) k.
Proof.
  intros Hnd. unfold remove.
  pose proof (map_get_delete (relationships g) node k Hnd) as Hget.
  pose proof (map_delete_false (relationships g) node) as Hfalse.
  destruct (map_delete (relationships g) node) as [m [|]]; simpl in *; [done|].
  rewrite Hfalse in Hget by done. done.
Qed.

Lemma keys_distinct_remove g node : keys_distinct g → keys_distinct (remove g node).
Proof.
  unfold keys_distinct, getNodes, remove. intros Hnd.
  pose proof (map_keys_delete_NoDup (relationships g) node Hnd) as Hnd'.
  by destruct (map_delete (relationships g) node) as [m [|]].
Qed.

Lemma edge_remove g node a b :
  keys_distinct g → edge (remove g node) a b ↔ a ≠ node ∧ edge g a b.
Proof.
  intros Hnd. unfold edge.
  rewrite !getDependents_shallow_default, map_get_remove by done.
  destruct (decide (node = a)) as [->|]; simpl.
  - split; [by intros ?%elem_of_nil | by intros [? _]].
  - naive_solver.
Qed.

Lemma addDependency_unfold g from to :
  addDependency g from to =
    (with_dependency g from to,
     _ ← traverse (depth_bound (with_dependency g from to))
           (with_dependency g from to) from from ∅; Ret ()).
Proof.
  unfold addDependency, with_dependency.
  assert (contains (add (add g from) to) from = true) as Hc.
  { apply contains_add. left. apply contains_add. by right. }
  apply contains_true in Hc as [s Hs].
  rewrite Hs, getDependents_shallow_default, Hs. done.
Qed.

Lemma map_get_with_dependency g from to k :
  map_get (relationships (with_dependency g from to)) k =
    if decide (from = k)
    then Some (set_add (getDependents_shallow g from) to)
    else map_get (relationships (add (add g from) to)) k.
Proof.
  unfold with_dependency. simpl. rewrite map_get_set.
  by rewrite !getDependents_shallow_add.
Qed.

Lemma contains_with_dependency g from to x :
  contains (with_dependency g from to) x = true ↔
  contains g x = true ∨ x = from ∨ x = to.
Proof.
  rewrite contains_true, map_get_with_dependency.
  destruct (decide (from = x)) as [->|Hne].
  - split; [by right; left | by eexists].
  - rewrite <- contains_true, !contains_add. naive_solver.
Qed.

Lemma edge_with_dependency g from to a b :
  edge (with_dependency g from to) a b ↔ edge g a b ∨ (a = from ∧ b = to).
Proof.
  unfold edge at 1. rewrite getDependents_shallow_default, map_get_with_dependency.
  destruct (decide (from = a)) as [->|Hne]; simpl.
  - rewrite set_add_elem. unfold edge. naive_solver.
  - rewrite <- getDependents_shallow_default, !getDependents_shallow_add.
    unfold edge. naive_solver.
Qed.

Lemma getNodes_with_dependency g from to :
  getNodes (with_dependency g from to) = getNodes (add (add g from) to).
Proof.
  unfold with_dependency, getNodes. simpl. rewrite map_keys_set, decide_True; [done|].
  apply contains_getNodes, contains_add. left. apply contains_add. by right.
Qed.

Lemma keys_distinct_with_dependency g from to :
  keys_distinct g → keys_distinct (with_dependency g from to).
Proof.
  intros Hnd. unfold keys_distinct. rewrite getNodes_with_dependency.
  by do 2 apply keys_distinct_add.
Qed.

Lemma addDependency_graph g from to :
  (addDependency g from to).1 = with_dependency g from to.
Proof. by rewrite addDependency_unfold. Qed.

(** The outcome of [addDependency] is decided by the cycle check, which
    always has fuel enough. *)
Lemma addDependency_outcome g from to :
  (on_cycle (with_dependency g from to) from ∧
     (addDependency g from to).2 = Raise CircularDependency) ∨
  (¬ on_cycle (with_dependency g from to) from ∧
     (addDependency g from to).2 = Ret ()).
Proof.
  rewrite addDependency_unfold. cbn [snd].
  set (g' := with_dependency g from to).
  destruct (traverse (depth_bound g') g' from from ∅) as [v|e|] eqn:Htr.
  - right. split; [by eapply traverse_from_Ret | done].
  - left. apply traverse_from_Raise in Htr as [-> ?]. done.
  - exfalso. revert Htr. apply traverse_enough_fuel.
    eapply Nat.le_lt_trans; [|apply card_reachable_items].
    apply subseteq_size. set_solver.
Qed.

(** X15. On items for which [==] answers as the key comparison of [Map]
    and [Set] does (strings are such items): [addDependency(from, to)]
    makes both endpoints nodes of the graph and adds [to] to the direct
    dependents of [from], changing nothing else of the relation; it throws
    the circular-dependency error exactly when, in the resulting relation,
    [from] is reachable in one or more steps from one of its own direct
    dependents, and returns normally otherwise, whatever cycles exist
    elsewhere (the call always ends in one of the two ways);
    [addDependency(a, a)] always throws. *)
Theorem addDependency_raises_iff_cycle g from to :
  let g' := (addDependency g from to).1 in
  let r := (addDependency g from to).2 in
  (∀ x, contains g' x = true ↔ contains g x = true ∨ x = from ∨ x = to) ∧
  (∀ a b, edge g' a b ↔ edge g a b ∨ (a = from ∧ b = to)) ∧
  (r = Raise CircularDependency ↔
     ∃ d, edge g' from d ∧ tc (edge g') d from) ∧
  (r = Ret () ↔ ¬ ∃ d, edge g' from d ∧ tc (edge g') d from) ∧
  (r = Raise CircularDependency ∨ r = Ret ()) ∧
  (from = to → r = Raise CircularDependency).
Proof.
  intros g' r. subst g' r. rewrite addDependency_graph.
  split; [apply contains_with_dependency|].
  split; [apply edge_with_dependency|].
  fold (on_cycle (with_dependency g from to) from).
  destruct (addDependency_outcome g from to) as [[Hc ->]|[Hc ->]].
  - split; [done|]. split; [done|]. split; [by left | done].
  - split; [done|]. split; [done|]. split; [by right|]. intros <-. destruct Hc.
    exists from. assert (edge (with_dependency g from from) from from) as He
      by (apply edge_with_dependency; by right).
    split; [done|]. by apply tc_once.
Qed.

(** C2. When [addDependency(from, to)] throws, the graph it leaves
    behind still has both endpoints as nodes and still has [to] among the
    direct dependents of [from]: nothing is rolled back. *)
Theorem addDependency_no_rollback g from to e :
  (addDependency g from to).2 = Raise e →
  let g' := (addDependency g from to).1 in
  contains g' from = true ∧ contains g' to = true ∧
  (∃ s, getAdjacentNodes g' from = Some s ∧ to ∈ s) ∧
  to ∈ getDependents_shallow g' from.
Proof.
  intros _ g'. subst g'. rewrite addDependency_graph.
  split; [apply contains_with_dependency; auto|].
  split; [apply contains_with_dependency; auto|].
  assert (to ∈ set_add (getDependents_shallow g from) to) as Hto
    by (apply set_add_elem; by left).
  split.
  - unfold getAdjacentNodes. rewrite map_get_with_dependency, decide_True by done.
    by eexists.
  - rewrite getDependents_shallow_default, map_get_with_dependency, decide_True by done.
    done.
Qed.
End Mutation.

(** ** Acyclicity along sequences of calls *)
Section Acyclicity.
Context {T : Type} `{Countable T} `{LooseEq T} `{!LooseEqExact T}.
Implicit Types (g : t T) (node from to : T) (ops : list (op T)).

Lemma acyclic_new : acyclic (new (T:=T)).
Proof.
  intros x (n & Hn & Hsteps)%tc_nsteps. destruct n as [|n]; [lia|].
  apply nsteps_inv_r in Hsteps as (y & _ & Hy).
  unfold edge in Hy. by apply elem_of_nil in Hy.
Qed.

Lemma keys_distinct_new : keys_distinct (new (T:=T)).
Proof. apply NoDup_nil_2. Qed.

Lemma tc_subrel (R R' : relation T) a b :
  (∀ x y, R' x y → R x y) → tc R' a b → tc R a b.
Proof.
  intros Hsub. induction 1 as [a b Hab|a b c Hab Hbc IH].
  - apply tc_once. by apply Hsub.
  - eapply tc_l; [|exact IH]. by apply Hsub.
Qed.

Lemma acyclic_subrel g g' :
  (∀ a b, edge g' a b → edge g a b) → acyclic g → acyclic g'.
Proof. intros Hsub Hac x Hx. apply (Hac x). by eapply tc_subrel. Qed.

(** A path of the relation with one more pair [(from, to)] either avoids
    that pair, or reaches [from] before it and leaves [to] after it. *)
Lemma tc_extra_edge (R R' : relation T) from to a b :
  (∀ x y, R' x y → R x y ∨ (x = from ∧ y = to)) →
  tc R' a b → tc R a b ∨ (rtc R a from ∧ rtc R' to b).
Proof.
  intros HR'. induction 1 as [a b Hab|a c b Hac Hcb IH].
  - destruct (HR' _ _ Hab) as [?|[-> ->]]; [left; by apply tc_once | by right].
  - destruct (HR' _ _ Hac) as [?|[-> ->]].
    + destruct IH as [?|[? ?]]; [left; by eapply tc_l|].
      right. split; [by eapply rtc_l | done].
    + right. split; [done | by apply tc_rtc].
Qed.

(** A call of [addDependency] that returns keeps an acyclic relation
    acyclic. *)
Lemma acyclic_addDependency g from to :
  acyclic g → (addDependency g from to).2 = Ret () →
  acyclic (addDependency g from to).1.
Proof.
  intros Hac Hret. rewrite addDependency_graph.
  destruct (addDependency_outcome g from to) as [[_ Hr]|[Hnc _]]; [congruence|].
  set (g' := with_dependency g from to) in *.
  intros x Hx.
  apply (tc_extra_edge (edge g) (edge g') from to) in Hx as [Hx|[Hxf Htx]].
  - by apply (Hac x).
  - apply Hnc, on_cycle_tc.
    assert (edge g' from to) as Hft by (apply edge_with_dependency; by right).
    eapply tc_rtc_r; [by apply tc_once|].
    etrans; [exact Htx|].
    eapply rtc_subrel; [|exact Hxf].
    intros a b Hab. apply edge_with_dependency. by left.
  - intros a b Hab. by apply edge_with_dependency.
Qed.

Lemma step_keys_distinct g (o : op T) :
  keys_distinct g → keys_distinct (step g o).1.
Proof.
  destruct o as [node|node|from to]; simpl.
  - apply keys_distinct_add.
  - apply keys_distinct_remove.
  - rewrite addDependency_graph. apply keys_distinct_with_dependency.
Qed.

Lemma step_acyclic g (o : op T) :
  keys_distinct g → acyclic g → (step g o).2 = Ret () → acyclic (step g o).1.
Proof.
  intros Hnd Hac. destruct o as [node|node|from to]; simpl.
  - intros _. eapply acyclic_subrel; [|done]. intros a b. by rewrite edge_add.
  - intros _. eapply acyclic_subrel; [|done]. intros a b.
    rewrite edge_remove by done. naive_solver.
  - by apply acyclic_addDependency.
Qed.

Lemma run_cons g (o : op T) ops :
  run g (o :: ops) =
    ((run (step g o).1 ops).1, (step g o).2 :: (run (step g o).1 ops).2).
Proof.
  cbn [run]. destruct (step g o) as [g' r]. cbn [fst snd].
  by destruct (run g' ops).
Qed.

Lemma run_acyclic g ops :
  keys_distinct g → acyclic g →
  Forall (λ r, r = Ret ()) (run g ops).2 →
  keys_distinct (run g ops).1 ∧ acyclic (run g ops).1.
Proof.
  revert g. induction ops as [|o ops IH]; intros g Hnd Hac; [done|].
  rewrite run_cons. cbn [fst snd]. intros [Ho Hops]%Forall_cons.
  apply IH; [by apply step_keys_distinct | by apply step_acyclic | done].
Qed.

Lemma run_keys_distinct g ops :
  keys_distinct g → keys_distinct (run g ops).1.
Proof.
  revert g. induction ops as [|o ops IH]; intros g Hnd; [done|].
  rewrite run_cons. cbn [fst]. by apply IH, step_keys_distinct.
Qed.

End Acyclicity.

(** ** Queries about absent nodes *)
Section AbsentNode.
Context {T : Type} `{Countable T}.
Implicit Types (g : t T) (node : T).

(** C7, as the code has it. For a node that is not in the graph,
    [getDependents] returns an empty sequence for both values of
    [shallow] and does not throw; [getAdjacentNodes] does not throw
    either, but its result is [undefined], not an empty set. *)
Theorem absent_node_queries g node :
  contains g node = false →
  getDependents g node true = Ret [] ∧
  getDependents g node false = Ret [] ∧
  getAdjacentNodes g node = None.
Proof.
  unfold contains. intros Hc. unfold getDependents, getAdjacentNodes.
  rewrite Hc. by apply map_has_false in Hc.
Qed.
End AbsentNode.

(** ** Topological order *)
Section Topological.
Context {T : Type} `{Countable T}.
Implicit Types (g : t T) (visited : gset T) (node d : T) (items : list T).

Lemma ordered_app_r g l1 l2 : ordered g (l1 ++ l2) → ordered g l2.
Proof. induction l1 as [|x l1 IH]; simpl; [done|]. intros [_ ?]. auto. Qed.

Lemma ordered_tc g l1 l2 u v :
  ordered g (l1 ++ u :: l2) → tc (edge g) u v → v ∈ l2.
Proof.
  intros Hord Htc. revert l1 l2 Hord.
  induction Htc as [u v Huv|u w v Huw Hwv IH]; intros l1 l2 Hord.
  - apply ordered_app_r in Hord as [Hu _]. by apply Hu.
  - pose proof (ordered_app_r _ _ _ Hord) as [Hu _].
    apply Hu, list_elem_of_split in Huw as (l3 & l4 & ->).
    specialize (IH (l1 ++ u :: l3) l4).
    rewrite <- app_assoc in IH. specialize (IH Hord).
    apply elem_of_app. right. by right.
Qed.

Lemma ordered_before g items u v :
  ordered g items → u ∈ items → tc (edge g) u v → before items u v.
Proof.
  intros Hord (l1 & l2 & ->)%list_elem_of_split Htc.
  pose proof (ordered_tc _ _ _ _ _ Hord Htc) as (l3 & l4 & ->)%list_elem_of_split.
  by exists l1, l3, l4.
Qed.

Lemma iterate_remove (l : LinkedList.t T) :
  LinkedList.iterate (LinkedList.remove l).1 = tail (LinkedList.iterate l).
Proof.
  unfold LinkedList.iterate, LinkedList.remove.
  destruct l as [[|data next] n]; done.
Qed.

(** What one call of [getTopologicalDependents] on an unmarked node does
    to the shared [visited] and [list], when the relation is acyclic. The
    marked items that are not yet in the list are the calls in progress,
    each of which reaches [node]. *)
Lemma getTopologicalDependents_Ret fuel g node visited list st :
  acyclic g →
  getTopologicalDependents fuel g node visited list = Ret st →
  node ∉ visited →
  (∀ x, x ∈ LinkedList.iterate list → x ∈ visited) →
  (∀ y, y ∈ visited → y ∈ LinkedList.iterate list ∨ rtc (edge g) y node) →
  ordered g (LinkedList.iterate list) →
  NoDup (LinkedList.iterate list) →
  ∃ new,
    LinkedList.iterate st.2 = node :: (new ++ LinkedList.iterate list) ∧
    (∀ x, x ∈ st.1 ↔ x ∈ visited ∨ x = node ∨ x ∈ new) ∧
    (∀ x, x ∈ new → (x ∉ visited) ∧ tc (edge g) node x) ∧
    ordered g (LinkedList.iterate st.2) ∧
    NoDup (LinkedList.iterate st.2).
Proof.
  intros Hac. revert node visited list st.
  induction fuel as [|fuel IH]; intros node visited list st; [done|].
  rewrite getTopologicalDependents_S.
  intros (st1 & Hloop & [= <-])%bind_Ret_inv Hnode Hlisted Hgrey Hord Hnd.
  set (items := LinkedList.iterate list) in *.
  apply (for_of_Ret (λ pre s, ∃ new,
           LinkedList.iterate s.2 = new ++ items ∧
           (∀ x, x ∈ s.1 ↔ x ∈ visited ∨ x = node ∨ x ∈ new) ∧
           (∀ x, x ∈ new → (x ∉ visited) ∧ x ≠ node ∧ tc (edge g) node x) ∧
           ordered g (LinkedList.iterate s.2) ∧
           NoDup (LinkedList.iterate s.2) ∧
           (∀ d, d ∈ pre → d ∈ s.1))) in Hloop.
  - destruct Hloop as (new & Hit & Hvis & Hnew & Hord1 & Hnd1 & Hpre).
    exists new. cbn [fst snd]. rewrite LinkedListFacts.iterate_insert, Hit.
    split; [done|]. split; [done|]. split; [naive_solver|].
    rewrite <- Hit. split.
    + simpl. split; [|done]. intros y Hy.
      pose proof (Hpre y Hy) as Hyv. apply Hvis in Hyv as [Hyv|[->|Hyn]].
      * destruct (Hgrey y Hyv) as [?|Hreach].
        -- rewrite Hit. apply elem_of_app. by right.
        -- destruct (Hac node). by eapply tc_rtc_r; [apply tc_once|].
      * destruct (Hac node). by apply tc_once.
      * rewrite Hit. apply elem_of_app. by left.
    + apply NoDup_cons. split; [|done]. rewrite Hit.
      intros [Hn|Hn]%elem_of_app; [by destruct (Hnew node Hn) as (_ & ? & _)|].
      by apply Hnode, Hlisted.
  - exists []. cbn [fst snd]. split; [done|]. split; [set_solver|].
    split; [by intros x ?%elem_of_nil|]. split; [done|]. split; [done|].
    by intros d ?%elem_of_nil.
  - intros pre d post s s' Hds (new & Hit & Hvis & Hnew & Hord1 & Hnd1 & Hpre).
    assert (edge g node d) as Hedge by (unfold edge; rewrite Hds; set_solver).
    unfold topological_body. destruct (decide (d ∈ s.1)) as [Hd|Hd].
    + intros [= <-]. exists new. repeat (split; [done|]).
      intros d' [?| ->%list_elem_of_singleton]%elem_of_app; auto.
    + intros Hcall. apply IH in Hcall as (new' & Hit' & Hvis' & Hnew' & Hord' & Hnd');
        [|done| | |done|done].
      * exists (d :: new' ++ new).
        split; [by rewrite Hit', Hit, app_comm_cons, app_assoc|].
        split; [intros x; rewrite Hvis', Hvis, elem_of_cons, elem_of_app; naive_solver|].
        split.
        { intros x [->|[Hx|Hx]%elem_of_app]%elem_of_cons.
          - split; [intros ?; apply Hd, Hvis; by left|].
            split; [intros ->; apply Hd, Hvis; by right; left|]. by apply tc_once.
          - destruct (Hnew' x Hx) as [Hxs Htc].
            split; [intros ?; apply Hxs, Hvis; by left|].
            split; [intros ->; apply Hxs, Hvis; by right; left|]. by eapply tc_l.
          - by apply Hnew. }
        split; [done|]. split; [done|].
        intros d' [Hd'| ->%list_elem_of_singleton]%elem_of_app.
        -- apply Hvis'. left. by apply Hpre.
        -- apply Hvis'. right. by left.
      * intros x. rewrite Hit. intros [Hx|Hx]%elem_of_app; apply Hvis; auto.
      * intros y [Hy|[->|Hy]]%Hvis.
        -- destruct (Hgrey y Hy) as [?|?].
           ++ left. rewrite Hit. apply elem_of_app. by right.
           ++ right. by eapply rtc_r.
        -- right. by apply rtc_once.
        -- left. rewrite Hit. apply elem_of_app. by left.
Qed.

Lemma edge_contains g a b : edge g a b → contains g a = true.
Proof.
  unfold edge, getDependents_shallow, contains.
  destruct (map_has (relationships g) a); [done|]. by intros ?%elem_of_nil.
Qed.

Lemma filter_eq_absent items x : x ∉ items → filter (λ y, y = x) items = [].
Proof.
  induction items as [|a items IH]; [done|].
  intros [Hne Hx]%not_elem_of_cons.
  rewrite filter_cons_False by congruence. by apply IH.
Qed.

Lemma filter_eq_once items x :
  NoDup items → x ∈ items → filter (λ y, y = x) items = [x].
Proof.
  induction items as [|a items IH]; [by intros _ ?%elem_of_nil|].
  intros [Ha Hnd]%NoDup_cons [->|Hx]%elem_of_cons.
  - rewrite filter_cons_True by done. by rewrite filter_eq_absent.
  - rewrite filter_cons_False by (intros ->; done). by apply IH.
Qed.

Lemma depth_bound_enough g (X : gset T) :
  card (reachable_items g ∖ X) < depth_bound g.
Proof.
  eapply Nat.le_lt_trans; [|apply card_reachable_items].
  apply subseteq_size. set_solver.
Qed.

(** [getTopologicalSort] on an acyclic relation: the loop over the nodes
    returns, and the list it has built is duplicate-free, ordered, and
    holds exactly the marked items, all nodes among them. *)
Lemma getTopologicalSort_Ret g :
  acyclic g →
  ∃ l, getTopologicalSort g = Ret l ∧
       NoDup (LinkedList.iterate l) ∧
       ordered g (LinkedList.iterate l) ∧
       (∀ x, x ∈ getNodes g → x ∈ LinkedList.iterate l).
Proof.
  intros Hac. unfold getTopologicalSort.
  fold (topological_body (depth_bound g) g).
  destruct (for_of _ _ _) as [st| |] eqn:Hloop.
  - exists st.2. split; [done|].
    apply (for_of_Ret (λ pre s,
             (∀ x, x ∈ s.1 ↔ x ∈ LinkedList.iterate s.2) ∧
             NoDup (LinkedList.iterate s.2) ∧
             ordered g (LinkedList.iterate s.2) ∧
             (∀ d, d ∈ pre → d ∈ s.1))) in Hloop.
    + destruct Hloop as (Hvis & Hnd & Hord & Hpre). naive_solver.
    + cbn [fst snd]. split; [set_solver|]. split; [apply NoDup_nil_2|].
      split; [done|]. by intros d ?%elem_of_nil.
    + intros pre d post s s' _ (Hvis & Hnd & Hord & Hpre).
      unfold topological_body. destruct (decide (d ∈ s.1)) as [Hd|Hd].
      * intros [= <-]. repeat (split; [done|]).
        intros d' [?| ->%list_elem_of_singleton]%elem_of_app; auto.
      * intros Hcall.
        apply getTopologicalDependents_Ret in Hcall
          as (new & Hit & Hvis' & _ & Hord' & Hnd'); [|done|done| | |done|done].
        -- split.
           { intros x. rewrite Hvis', Hit, elem_of_cons, elem_of_app, Hvis.
             naive_solver. }
           split; [done|]. split; [done|].
           intros d' [?| ->%list_elem_of_singleton]%elem_of_app; apply Hvis'; auto.
        -- intros x. apply Hvis.
        -- intros y. rewrite Hvis. auto.
  - exfalso.
    apply (for_of_Raise (λ _ _, True)) in Hloop as (_ & d & _ & s & _ & _ & Hd);
      [|done..].
    unfold topological_body in Hd. destruct (decide (d ∈ s.1)); [done|].
    by apply getTopologicalDependents_never_raises in Hd.
  - exfalso. revert Hloop. apply (for_of_fuel (λ _ _, True)); [done..|].
    intros _ d _ s _ _. unfold topological_body.
    destruct (decide (d ∈ s.1)); [done|].
    apply getTopologicalDependents_enough_fuel, depth_bound_enough.
Qed.

(** C4. On a graph whose relation is acyclic, [getTopologicalSort()]
    returns a sequence without repetition in which every node of the
    graph occurs (so exactly once), and in which [from] comes before [to]
    for every pair where [to] is a direct dependent of [from]; the loop
    over all the nodes covers disconnected components. *)
Theorem getTopologicalSort_correct g :
  acyclic g →
  ∃ l, getTopologicalSort g = Ret l ∧
       let items := LinkedList.iterate l in
       NoDup items ∧
       (∀ x, contains g x = true → filter (λ y, y = x) items = [x]) ∧
       (∀ from to, edge g from to → before items from to).
Proof.
  intros Hac. destruct (getTopologicalSort_Ret g Hac) as (l & Hl & Hnd & Hord & Hall).
  exists l. split; [done|]. split; [done|]. split.
  - intros x Hx. apply filter_eq_once; [done|]. by apply Hall, contains_getNodes.
  - intros from to Hedge. apply (ordered_before g); [done| |by apply tc_once].
    by eapply Hall, contains_getNodes, edge_contains.
Qed.

(** C5. On a graph whose relation is acyclic, for a node [x] of the
    graph, [getDependents(x)] (deep) returns a sequence without
    repetition whose items are exactly the nodes reachable from [x] in one
    or more steps; [x] itself is not among them; and whenever a returned
    item [u] has a path to an item [v], [u] comes before [v]. *)
Theorem getDependents_deep_correct g x :
  acyclic g → contains g x = true →
  ∃ items, getDependents g x false = Ret items ∧
    NoDup items ∧
    (∀ y, y ∈ items ↔ tc (edge g) x y) ∧
    (x ∉ items) ∧
    (∀ u v, u ∈ items → v ∈ items → tc (edge g) u v → before items u v).
Proof.
  intros Hac Hx. unfold getDependents. unfold contains in Hx. rewrite Hx. cbn [negb].
  destruct (getTopologicalDependents _ _ _ _ _) as [st|e|] eqn:Hcall.
  - apply getTopologicalDependents_Ret in Hcall
      as (new & Hit & _ & Hnew & Hord & Hnd);
      [|done|set_solver|by intros ? ?%elem_of_nil|set_solver|done|apply NoDup_nil_2].
    change (LinkedList.iterate LinkedList.new) with (@nil T) in Hit.
    rewrite app_nil_r in Hit. rewrite Hit in Hord, Hnd.
    exists new. rewrite bind_Ret, iterate_remove, Hit. split; [done|].
    apply NoDup_cons in Hnd as [Hxn Hnd]. split; [done|]. split.
    + intros y. split; [intros Hy; by destruct (Hnew y Hy)|]. intros Htc.
      by apply (ordered_tc g [] new x y).
    + split; [done|]. intros u v Hu _ Htc.
      destruct Hord as [_ Hord]. by apply (ordered_before g).
  - by apply getTopologicalDependents_never_raises in Hcall.
  - exfalso. revert Hcall.
    apply getTopologicalDependents_enough_fuel, depth_bound_enough.
Qed.
End Topological.

(** ** The string primitives *)
Section Strings.
Implicit Types (s pat pre post : str) (c : ascii) (i : nat).

Lemma starts_with_spec pat s :
  JSString.starts_with pat s = true ↔ ∃ post, s = pat ++ post.
Proof.
  revert s. induction pat as [|p pat IH]; intros s; simpl.
  - split; [by exists s | done].
  - destruct s as [|c s]; [split; [done | by intros [? ?]]|].
    destruct (decide (p = c)) as [->|Hne].
    + rewrite IH. split; intros [post Hpost]; exists post; congruence.
    + split; [done|]. intros [post [=]]. done.
Qed.

(** A search that fails: the pattern occurs nowhere. *)
Lemma search_absent pat s i :
  JSString.search pat s i = (-1)%Z ↔ ∀ pre post, s ≠ pre ++ pat ++ post.
Proof.
  revert i. induction s as [|c s IH]; intros i; cbn [JSString.search].
  - destruct (JSString.starts_with pat []) eqn:Hsw.
    + split; [lia|]. intros Hno. apply starts_with_spec in Hsw as [post Hpost].
      by destruct (Hno [] post).
    + split; [|done]. intros _ pre post Heq.
      symmetry in Heq. apply app_eq_nil in Heq as [-> Heq].
      assert (JSString.starts_with pat [] = true); [|congruence].
      apply starts_with_spec. by exists post.
  - destruct (JSString.starts_with pat (c :: s)) eqn:Hsw.
    + split; [lia|]. intros Hno. apply starts_with_spec in Hsw as [post Hpost].
      by destruct (Hno [] post).
    + rewrite IH. split.
      * intros Hno [|c' pre] post Heq.
        -- assert (JSString.starts_with pat (c :: s) = true); [|congruence].
           apply starts_with_spec. by exists post.
        -- injection Heq as -> Heq. by apply (Hno pre post).
      * intros Hno pre post ->. by apply (Hno (c :: pre) post).
Qed.

Lemma indexOf_0 s pat : JSString.indexOf s pat 0 = JSString.search pat s 0.
Proof.
  unfold JSString.indexOf, JSString.clamp, JSString.length.
  replace (Z.to_nat _) with 0 by lia. done.
Qed.

(** [includes] has its meaning: the pattern occurs somewhere. *)
Lemma includes_false s pat :
  JSString.includes s pat = false ↔ ∀ pre post, s ≠ pre ++ pat ++ post.
Proof.
  unfold JSString.includes. rewrite indexOf_0, <- search_absent.
  rewrite negb_false_iff. apply Z.eqb_eq.
Qed.

Lemma indexOf_drop s pat (k : nat) :
  k ≤ length s →
  JSString.indexOf s pat (Z.of_nat k) = JSString.search pat (drop k s) k.
Proof.
  intros Hk. unfold JSString.indexOf, JSString.clamp, JSString.length.
  replace (Z.to_nat _) with k by lia. done.
Qed.

(** Searching for one character that the text before it lacks. *)
Lemma search_char c pre post i :
  c ∉ pre →
  JSString.search [c] (pre ++ c :: post) i = Z.of_nat (i + length pre).
Proof.
  revert i. induction pre as [|c' pre IH]; intros i Hc; simpl.
  - rewrite decide_True by done. f_equal. lia.
  - apply not_elem_of_cons in Hc as [Hne Hc].
    rewrite decide_False by done. rewrite IH by done. f_equal. lia.
Qed.

Lemma substring_middle pre s post :
  JSString.substring (pre ++ s ++ post) (Z.of_nat (length pre))
    (Z.of_nat (length pre + length s)) = s.
Proof.
  unfold JSString.substring, JSString.clamp, JSString.length.
  rewrite !length_app.
  replace (Z.to_nat (Z.min (Z.max (Z.of_nat (length pre)) 0) _))
    with (length pre) by lia.
  replace (Z.to_nat (Z.min (Z.max (Z.of_nat (length pre + length s)) 0) _))
    with (length pre + length s) by lia.
  replace (Nat.min _ _) with (length pre) by lia.
  replace (Nat.max _ _ - _) with (length s) by lia.
  by rewrite drop_app_length, take_app_length.
Qed.
End Strings.

(** ** The textual form *)
Section Text.
Implicit Types (g : t str) (s done f to rest : str) (es : list (str * str)).

Lemma indexOf_arrow done f rest :
  JSString.includes f arrow = false →
  JSString.indexOf (done ++ f ++ arrow ++ rest) arrow (Z.of_nat (length done)) =
    Z.of_nat (length done + length f).
Proof.
  intros Hf. rewrite indexOf_drop by (rewrite length_app; lia).
  rewrite drop_app_length. generalize (length done) as i.
  induction f as [|c f IH]; intros i.
  - cbn. f_equal. lia.
  - assert (JSString.includes f arrow = false) as Hf'.
    { apply includes_false. intros pre post ->.
      rewrite includes_false in Hf. by apply (Hf (c :: pre) post). }
    assert (JSString.starts_with arrow ((c :: f) ++ arrow ++ rest) = false) as Hsw.
    { apply not_true_is_false. intros [post Hpost]%starts_with_spec.
      rewrite includes_false in Hf.
      destruct f as [|c' f]; [done|].
      injection Hpost as -> -> Hpost. by apply (Hf [] f). }
    change ((c :: f) ++ arrow ++ rest) with (c :: (f ++ arrow ++ rest)) in *.
    cbn [JSString.search]. rewrite Hsw, IH by done. f_equal. simpl. lia.
Qed.

Lemma indexOf_newline done f rest :
  JSString.includes f newline = false →
  JSString.indexOf (done ++ (arrow ++ f) ++ newline ++ rest) newline
    (Z.of_nat (length done)) = Z.of_nat (length done + (2 + length f)).
Proof.
  intros Hf. rewrite indexOf_drop by (rewrite length_app; lia).
  rewrite drop_app_length.
  unfold newline at 1 2. cbn [app].
  rewrite search_char; [by rewrite length_app|].
  intros [Hin|Hin]%elem_of_app.
  - by repeat (apply elem_of_cons in Hin as [?|Hin]; [done|]); apply elem_of_nil in Hin.
  - apply list_elem_of_split in Hin as (pre & post & ->).
    rewrite includes_false in Hf. by apply (Hf pre post).
Qed.

Lemma indexOf_arrow_end s : JSString.indexOf s arrow (Z.of_nat (length s)) = (-1)%Z.
Proof. rewrite indexOf_drop by done. by rewrite drop_all. Qed.

Lemma edges_list_spec g a b : (a, b) ∈ edges_list g ↔ edge g a b.
Proof.
  unfold edges_list. rewrite list_elem_of_join. split.
  - intros (l & Hab & (k & -> & Hk)%list_elem_of_fmap).
    by apply list_elem_of_fmap in Hab as (to & [= -> ->] & Hto).
  - intros Hab. exists ((λ to, (a, to)) <$> getDependents_shallow g a). split.
    + apply list_elem_of_fmap. by exists b.
    + apply list_elem_of_fmap. exists a. split; [done|].
      by eapply contains_getNodes, edge_contains.
Qed.

Lemma toString_inner from (l : list str) acc :
  foldl (λ result to,
           result ++ (id from ++ JSString.lit "->" ++ id to ++ ["010"%char]))
    acc l = acc ++ mjoin (line <$> ((λ to, (from, to)) <$> l)).
Proof.
  revert acc. induction l as [|to l IH]; intros acc; simpl.
  - by rewrite app_nil_r.
  - rewrite IH. by rewrite <- app_assoc.
Qed.

Lemma toString_outer g (ks : list str) acc :
  foldl (λ result from,
           foldl (λ result to,
                    result ++ (id from ++ JSString.lit "->" ++ id to ++ ["010"%char]))
             result (getDependents_shallow g from))
    acc ks =
  acc ++ mjoin (line <$>
    mjoin ((λ from, (λ to, (from, to)) <$> getDependents_shallow g from) <$> ks)).
Proof.
  revert acc. induction ks as [|k ks IH]; intros acc.
  - simpl. by rewrite app_nil_r.
  - cbn [foldl]. rewrite IH, toString_inner. rewrite fmap_cons.
    change (mjoin (?x :: ?l)) with (x ++ mjoin l).
    by rewrite fmap_app, join_app, app_assoc.
Qed.

Lemma toString_lines g :
  toString id g = mjoin (line <$> edges_list g).
Proof. unfold toString, edges_list. by rewrite toString_outer. Qed.

Lemma Generate_loop_exit fuel s g start index :
  (index ≤ 0)%Z → Generate_loop fuel s g start index = Ret g.
Proof.
  intros Hle. assert ((index >? 0)%Z = false) as Hgt by lia.
  destruct fuel; simpl; by rewrite Hgt.
Qed.

Lemma Generate_loop_S fuel s g start index :
  (0 < index)%Z →
  Generate_loop (S fuel) s g start index =
    let from := JSString.substring s start index in
    let start := (index + 1)%Z in
    let index := JSString.indexOf s newline index in
    let to := JSString.substring s (start + 1) index in
    let '(g', r) := addDependency g from to in
    _ ← r;
    Generate_loop fuel s g' (index + 1) (JSString.indexOf s arrow (index + 1)).
Proof.
  intros Hlt. assert ((index >? 0)%Z = true) as Hgt by lia.
  cbn [Generate_loop]. by rewrite Hgt.
Qed.

(** The parsing loop, positioned at the start of a line of a text made of
    lines, hands the pairs of the remaining lines to [addDependency] one
    after the other. The first line of the whole text must not start with
    the arrow: the loop stops at once when it finds the arrow at index
    0. *)
Lemma Generate_loop_lines es done g fuel :
  Forall (λ e, identifier_ok e.1 = true ∧ identifier_ok e.2 = true) es →
  (∀ e, head es = Some e → done = [] → e.1 ≠ []) →
  length es ≤ fuel →
  Generate_loop fuel (done ++ mjoin (line <$> es)) g (Z.of_nat (length done))
    (JSString.indexOf (done ++ mjoin (line <$> es)) arrow (Z.of_nat (length done)))
  = addDependencies g es.
Proof.
  revert done g fuel. induction es as [|[f to] es IH]; intros done g fuel Hok Hhd Hfuel.
  - simpl. rewrite app_nil_r, indexOf_arrow_end. by apply Generate_loop_exit.
  - apply Forall_cons in Hok as [[Hf Hto] Hok]. cbn [fst snd] in Hf, Hto.
    unfold identifier_ok in Hf, Hto.
    apply andb_true_iff in Hf as [Hf1%negb_true_iff Hf2%negb_true_iff].
    apply andb_true_iff in Hto as [Hto1%negb_true_iff Hto2%negb_true_iff].
    destruct fuel as [|fuel]; [simpl in Hfuel; lia|].
    set (rest := mjoin (line <$> es)).
    set (s := done ++ mjoin (line <$> (f, to) :: es)).
    assert (s = done ++ f ++ arrow ++ (to ++ newline ++ rest)) as Hs1.
    { unfold s, rest, line. rewrite fmap_cons. cbn [fst snd].
      change (mjoin (?x :: ?l)) with (x ++ mjoin l). by rewrite <- !app_assoc. }
    assert (s = (done ++ f) ++ (arrow ++ to) ++ newline ++ rest) as Hs2.
    { rewrite Hs1. by rewrite <- !app_assoc. }
    assert (s = (done ++ f ++ arrow) ++ to ++ (newline ++ rest)) as Hs3.
    { rewrite Hs1. by rewrite <- !app_assoc. }
    assert (s = (done ++ line (f, to)) ++ rest) as Hs4.
    { rewrite Hs1. unfold line. cbn [fst snd]. by rewrite <- !app_assoc. }
    assert (JSString.indexOf s arrow (Z.of_nat (length done)) =
              Z.of_nat (length done + length f)) as Hi1.
    { rewrite Hs1. by apply indexOf_arrow. }
    rewrite Hi1.
    assert (0 < length done + length f) as Hpos.
    { destruct done as [|c done]; [|simpl; lia].
      destruct f as [|c f]; [|simpl; lia]. by destruct (Hhd ([], to)). }
    rewrite Generate_loop_S by lia. cbn zeta.
    assert (JSString.substring s (Z.of_nat (length done))
              (Z.of_nat (length done + length f)) = f) as ->.
    { rewrite Hs1. apply substring_middle. }
    assert (JSString.indexOf s newline (Z.of_nat (length done + length f)) =
              Z.of_nat (length done + length f + 2 + length to)) as ->.
    { rewrite Hs2, <- length_app, indexOf_newline by done.
      f_equal. rewrite length_app. lia. }
    assert (JSString.substring s (Z.of_nat (length done + length f) + 1 + 1)
              (Z.of_nat (length done + length f + 2 + length to)) = to) as ->.
    { rewrite Hs3.
      replace (Z.of_nat (length done + length f) + 1 + 1)%Z
        with (Z.of_nat (length (done ++ f ++ arrow)))
        by (rewrite !length_app; simpl; lia).
      replace (length done + length f + 2 + length to)
        with (length (done ++ f ++ arrow) + length to)
        by (rewrite !length_app; simpl; lia).
      apply substring_middle. }
    cbn [addDependencies fst snd].
    destruct (addDependency g f to) as [g' r].
    destruct r as [[]|e|]; [|done..]. rewrite !bind_Ret.
    replace (Z.of_nat (length done + length f + 2 + length to) + 1)%Z
      with (Z.of_nat (length (done ++ line (f, to))))
      by (unfold line; rewrite !length_app; simpl; lia).
    rewrite Hs4. apply IH; [done| |simpl in Hfuel; lia].
    intros e' _ Hnil. apply (f_equal length) in Hnil.
    unfold line in Hnil. rewrite !length_app in Hnil. simpl in Hnil. lia.
Qed.

(** On the pairs of an acyclic relation no call throws, and the graph
    built has exactly those pairs and their endpoints. *)
Lemma addDependencies_acyclic (G : t str) es g :
  acyclic G →
  (∀ a b, edge g a b → edge G a b) →
  (∀ e, e ∈ es → edge G e.1 e.2) →
  ∃ g', addDependencies g es = Ret g' ∧
        (∀ a b, edge g' a b ↔ edge g a b ∨ (a, b) ∈ es) ∧
        (∀ x, contains g' x = true ↔
              contains g x = true ∨ ∃ e, e ∈ es ∧ (x = e.1 ∨ x = e.2)).
Proof.
  intros Hac. revert g. induction es as [|[f to] es IH]; intros g Hsub Hes.
  - exists g. split; [done|]. split.
    + intros a b. rewrite elem_of_nil. naive_solver.
    + intros x. split; [by left|]. intros [?|(e & ?%elem_of_nil & _)]; done.
  - cbn [addDependencies fst snd].
    pose proof (addDependency_graph g f to) as Hg1.
    pose proof (addDependency_outcome g f to) as Hout.
    destruct (addDependency g f to) as [g1 r]. cbn [fst snd] in Hg1, Hout. subst g1.
    assert (∀ a b, edge (with_dependency g f to) a b → edge G a b) as Hsub1.
    { intros a b [?|[-> ->]]%edge_with_dependency; [by apply Hsub|].
      apply (Hes (f, to)). left. }
    destruct Hout as [[Hcyc _]|[_ ->]].
    { destruct (Hac f). apply on_cycle_tc in Hcyc. by eapply tc_subrel. }
    rewrite bind_Ret.
    destruct (IH (with_dependency g f to)) as (g' & Hg' & Hedge & Hnodes);
      [done|by intros e ?; apply Hes; right|].
    exists g'. split; [done|]. split.
    + intros a b. rewrite Hedge, edge_with_dependency, elem_of_cons.
      split; [|naive_solver]. intros [[?|[-> ->]]|?]; auto.
    + intros x. rewrite Hnodes, contains_with_dependency. split.
      * intros [[?|[->| ->]]|(e & He & Hx)]; [by left|right..].
        -- exists (f, to). split; [left|by left].
        -- exists (f, to). split; [left|by right].
        -- exists e. split; [by right|done].
      * intros [?|(e & [->|He]%elem_of_cons & Hx)]; [by left; left| |].
        -- left. right. cbn [fst snd] in Hx. naive_solver.
        -- right. by exists e.
Qed.

Lemma identifier_ok_edge (G : t str) a b :
  forallb identifier_ok (identifiers G) = true → edge G a b →
  identifier_ok a = true ∧ identifier_ok b = true.
Proof.
  intros Hok Hab. rewrite forallb_forall in Hok. split; apply Hok, list_elem_of_In.
  - apply elem_of_app. left. by eapply contains_getNodes, edge_contains.
  - apply elem_of_app. right.
    apply edge_reachable_items in Hab. by apply elem_of_list_to_set in Hab.
Qed.

(** C6, as the code has it. Let [G] be an acyclic graph over strings
    whose identifiers contain neither the arrow nor a newline, and whose
    first line of text does not have the empty string as its source.
    Then [Generate(G.toString())] returns a graph with the same
    direct-dependent pairs as [G], whose nodes are exactly the items that
    occur in some pair of [G], as source or as dependent. So the nodes of
    [G] without any pair are absent, and an item that is no longer a node
    of [G] but still sits in the set of one is a node again. *)
Theorem Generate_toString_roundtrip (G : t str) :
  acyclic G →
  forallb identifier_ok (identifiers G) = true →
  (∀ to, head (edges_list G) ≠ Some ([], to)) →
  ∃ G', (∀ fuel, length (edges_list G) ≤ fuel →
                 Generate fuel (toString id G) = Ret G') ∧
        (∀ a b, edge G' a b ↔ edge G a b) ∧
        (∀ x, contains G' x = true ↔ ∃ y, edge G x y ∨ edge G y x).
Proof.
  intros Hac Hok Hhd.
  destruct (addDependencies_acyclic G (edges_list G) new Hac)
    as (G' & HG' & Hedge & Hnodes).
  { intros a b Hab. unfold edge in Hab. by apply elem_of_nil in Hab. }
  { intros [a b] ?. by apply edges_list_spec. }
  exists G'. split; [|split].
  - intros fuel Hfuel. unfold Generate. rewrite toString_lines, <- HG'.
    apply (Generate_loop_lines (edges_list G) [] new fuel); [| |done].
    + apply Forall_forall. intros [a b] Hab%edges_list_spec.
      by apply (identifier_ok_edge G).
    + intros [f to] He _. cbn [fst]. intros ->. by apply (Hhd to).
  - intros a b. rewrite Hedge, edges_list_spec. split; [|by right].
    intros [Hab|?]; [|done]. unfold edge in Hab. by apply elem_of_nil in Hab.
  - intros x. rewrite Hnodes. split.
    + intros [?|([a b] & Hab%edges_list_spec & [->| ->])]; [done|..].
      * exists b. by left.
      * exists a. by right.
    + intros (y & [Hxy|Hyx]); right.
      * exists (x, y). split; [by apply edges_list_spec | by left].
      * exists (y, x). split; [by apply edges_list_spec | by right].
Qed.

(** C10. When the arrow occurs in [s] first at index 0, or not at all,
    [Generate(s)] returns the empty graph, of size 0, without nodes and
    without pairs: the loop runs only while the index found is strictly
    positive. In particular [Generate("")] is the empty graph. *)
Theorem Generate_empty_graph fuel s :
  (∃ post, s = arrow ++ post) ∨ (∀ pre post, s ≠ pre ++ arrow ++ post) →
  Generate fuel s = Ret new ∧
  size (new (T:=str)) = 0%Z ∧
  getNodes (new (T:=str)) = [] ∧
  (∀ a b, ¬ edge (new (T:=str)) a b) ∧
  Generate fuel [] = Ret new.
Proof.
  intros Hs. split; [|split; [done|split; [done|split]]].
  - unfold Generate. apply Generate_loop_exit. rewrite indexOf_0.
    destruct Hs as [Hs|Hs].
    + apply starts_with_spec in Hs. destruct s as [|c s]; [done|].
      cbn [JSString.search]. by rewrite Hs.
    + apply search_absent with (i := 0) in Hs. lia.
  - intros a b Hab. unfold edge in Hab. by apply elem_of_nil in Hab.
  - unfold Generate. by apply Generate_loop_exit.
Qed.
End Text.

(** ** Concrete graphs *)
Section Examples.
Local Abbreviation a := (JSString.lit "a").
Local Abbreviation b := (JSString.lit "b").
Local Abbreviation c := (JSString.lit "c").
Local Abbreviation d := (JSString.lit "d").

Lemma diamond_acyclic : acyclic diamond.
Proof.
  apply run_acyclic; [apply keys_distinct_new | apply acyclic_new |].
  vm_compute. repeat constructor.
Qed.

Lemma dangling_acyclic : acyclic dangling.
Proof.
  apply run_acyclic; [apply keys_distinct_new | apply acyclic_new |].
  vm_compute. repeat constructor.
Qed.

(** The orders of the tests of the repository. *)
Example diamond_getDependents :
  getDependents diamond a false = Ret [c; d; b].
Proof. vm_compute. reflexivity. Qed.

Example diamond_getTopologicalSort :
  LinkedList.iterate <$> getTopologicalSort diamond
    = Ret [JSString.lit "e"; a; c; d; b].
Proof. vm_compute. reflexivity. Qed.

Example diamond_toString :
  toString id diamond = mjoin (line <$> [(a, b); (a, c); (c, d); (d, b)]).
Proof. vm_compute. reflexivity. Qed.


(** C6 fails as stated: [b] is not a node of [dangling], yet it is a
    node of the graph generated from the text of [dangling]. *)
Lemma roundtrip_revives_removed_node :
  acyclic dangling ∧
  forallb identifier_ok (identifiers dangling) = true ∧
  contains dangling b = false ∧
  toString id dangling = a ++ arrow ++ b ++ newline ∧
  ∃ G', Generate 1 (toString id dangling) = Ret G' ∧ contains G' b = true.
Proof.
  split; [apply dangling_acyclic|]. split; [by vm_compute|].
  split; [by vm_compute|]. split; [by vm_compute|].
  eexists. split; [vm_compute; reflexivity | by vm_compute].
Qed.

(** The other way in which the round trip loses a graph: a first line
    whose source is the empty string stops the parsing loop at once. *)
Example roundtrip_empty_source :
  let G := (addDependency (new (T:=str)) [] b).1 in
  edge G [] b ∧ ∀ fuel, Generate fuel (toString id G) = Ret new.
Proof.
  split.
  - unfold edge. vm_compute. apply list_elem_of_here.
  - intros fuel. unfold Generate. by apply Generate_loop_exit.
Qed.

(** C7 fails as stated: for an absent node [getAdjacentNodes] answers
    [undefined], which is not an empty set. *)
Lemma getAdjacentNodes_absent_undefined :
  contains (new (T:=str)) a = false ∧
  getAdjacentNodes (new (T:=str)) a = None ∧
  getAdjacentNodes (new (T:=str)) a ≠ Some [].
Proof. done. Qed.

(** *** The theorems with hypotheses, at concrete inputs *)

Lemma addDependency_no_rollback_witness :
  (addDependency (new (T:=str)) a a).2 = Raise CircularDependency ∧
  (let g' := (addDependency (new (T:=str)) a a).1 in
   contains g' a = true ∧ contains g' a = true ∧
   (∃ s, getAdjacentNodes g' a = Some s ∧ a ∈ s) ∧
   a ∈ getDependents_shallow g' a).
Proof.
  assert ((addDependency (new (T:=str)) a a).2 = Raise CircularDependency) as Hr
    by (vm_compute; reflexivity).
  split; [exact Hr|].
  exact (addDependency_no_rollback new a a CircularDependency Hr).
Defined.


(** A run that is repaired: [b -> a] is rejected, the caller removes [b],
    and [addDependency(c, d)] then returns on an acyclic relation and
    leaves it acyclic. *)
Example repaired_run_acyclic :
  let ops := [AddDependency a b; AddDependency b a; Remove b; AddDependency c d] in
  (run (new (T:=str)) ops).2 = [Ret (); Raise CircularDependency; Ret (); Ret ()] ∧
  acyclic (run (new (T:=str)) ops).1.
Proof.
  split; [by vm_compute|].
  change (acyclic (step dangling (AddDependency c d)).1).
  apply step_acyclic.
  - apply run_keys_distinct, keys_distinct_new.
  - apply dangling_acyclic.
  - by vm_compute.
Qed.

(** On numbers the guarantee is lost with [NaN]: the one-call run
    [addDependency(NaN, NaN)] throws nothing and stores a self-loop. *)
Example NaN_self_loop_run :
  (run (new (T:=number)) [AddDependency NaN NaN]).2 = [Ret ()] ∧
  ¬ acyclic (run (new (T:=number)) [AddDependency NaN NaN]).1.
Proof.
  split; [by vm_compute|]. intros Hac. apply (Hac NaN), tc_once.
  unfold edge. vm_compute. apply list_elem_of_here.
Qed.

(** X15 at a concrete call on strings. *)
Lemma addDependency_raises_iff_cycle_witness :
  let g' := (addDependency two_cycle c a).1 in
  let r := (addDependency two_cycle c a).2 in
  (∀ x, contains g' x = true ↔ contains two_cycle x = true ∨ x = c ∨ x = a) ∧
  (∀ x y, edge g' x y ↔ edge two_cycle x y ∨ (x = c ∧ y = a)) ∧
  (r = Raise CircularDependency ↔
     ∃ x, edge g' c x ∧ tc (edge g') x c) ∧
  (r = Ret () ↔ ¬ ∃ x, edge g' c x ∧ tc (edge g') x c) ∧
  (r = Raise CircularDependency ∨ r = Ret ()) ∧
  (c = a → r = Raise CircularDependency).
Proof. exact (addDependency_raises_iff_cycle (T:=str) two_cycle c a). Defined.

(** C1. The claim fails on the code at [addDependency(NaN, NaN)] on a
    fresh graph of numbers. The pair is stored, so [NaN] is a direct
    dependent of itself and a cycle of length one passes through it; yet
    the call returns normally: [NaN == NaN] is false, and the traversal
    does not go on because the [visited] set, which compares as [Map] and
    [Set] do, holds [NaN]. *)
Lemma addDependency_NaN_returns :
  let g' := (addDependency (new (T:=number)) NaN NaN).1 in
  (addDependency (new (T:=number)) NaN NaN).2 = Ret () ∧
  contains g' NaN = true ∧
  getAdjacentNodes g' NaN = Some [NaN] ∧
  edge g' NaN NaN ∧
  (∃ x, edge g' NaN x ∧ tc (edge g') x NaN).
Proof.
  assert (edge (addDependency (new (T:=number)) NaN NaN).1 NaN NaN) as Hedge
    by (unfold edge; vm_compute; apply list_elem_of_here).
  split; [by vm_compute|]. split; [by vm_compute|]. split; [by vm_compute|].
  split; [done|]. exists NaN. split; [done | by apply tc_once].
Qed.

Lemma getTopologicalSort_correct_witness :
  acyclic diamond ∧
  ∃ l, getTopologicalSort diamond = Ret l ∧
       let items := LinkedList.iterate l in
       NoDup items ∧
       (∀ x, contains diamond x = true → filter (λ y, y = x) items = [x]) ∧
       (∀ from to, edge diamond from to → before items from to).
Proof.
  split; [exact diamond_acyclic|].
  exact (getTopologicalSort_correct diamond diamond_acyclic).
Defined.

Lemma getDependents_deep_correct_witness :
  acyclic diamond ∧ contains diamond a = true ∧
  ∃ items, getDependents diamond a false = Ret items ∧
    NoDup items ∧
    (∀ y, y ∈ items ↔ tc (edge diamond) a y) ∧
    (a ∉ items) ∧
    (∀ u v, u ∈ items → v ∈ items → tc (edge diamond) u v → before items u v).
Proof.
  assert (contains diamond a = true) as Ha by (vm_compute; reflexivity).
  split; [exact diamond_acyclic|]. split; [exact Ha|].
  exact (getDependents_deep_correct diamond a diamond_acyclic Ha).
Defined.

Lemma Generate_toString_roundtrip_witness :
  acyclic diamond ∧
  forallb identifier_ok (identifiers diamond) = true ∧
  (∀ to, head (edges_list diamond) ≠ Some ([], to)) ∧
  ∃ G', (∀ fuel, length (edges_list diamond) ≤ fuel →
                 Generate fuel (toString id diamond) = Ret G') ∧
        (∀ x y, edge G' x y ↔ edge diamond x y) ∧
        (∀ x, contains G' x = true ↔ ∃ y, edge diamond x y ∨ edge diamond y x).
Proof.
  assert (forallb identifier_ok (identifiers diamond) = true) as Hok
    by (vm_compute; reflexivity).
  assert (∀ to, head (edges_list diamond) ≠ Some ([], to)) as Hhd
    by (intros to; vm_compute; discriminate).
  split; [exact diamond_acyclic|]. split; [exact Hok|]. split; [exact Hhd|].
  exact (Generate_toString_roundtrip diamond diamond_acyclic Hok Hhd).
Defined.

Lemma absent_node_queries_witness :
  contains two_cycle c = false ∧
  getDependents two_cycle c true = Ret [] ∧
  getDependents two_cycle c false = Ret [] ∧
  getAdjacentNodes two_cycle c = None.
Proof.
  assert (contains two_cycle c = false) as Hc by (vm_compute; reflexivity).
  split; [exact Hc|]. exact (absent_node_queries two_cycle c Hc).
Defined.

Lemma traversals_terminate_witness :
  card (reachable_items two_cycle ∖ ({[a]} ∪ ∅)) < 3 ∧
  traverse 3 two_cycle a a ∅ ≠ OutOfFuel ∧
  getTopologicalDependents 3 two_cycle a ∅ LinkedList.new ≠ OutOfFuel.
Proof.
  assert (card (reachable_items two_cycle ∖ ({[a]} ∪ ∅)) < 3) as Hlt
    by (vm_compute; lia).
  split; [exact Hlt|].
  exact (traversals_terminate 3 two_cycle a a ∅ LinkedList.new Hlt).
Defined.

Lemma Generate_empty_graph_witness :
  let s := arrow ++ b ++ newline in
  ((∃ post, s = arrow ++ post) ∨ (∀ pre post, s ≠ pre ++ arrow ++ post)) ∧
  Generate 7 s = Ret new ∧
  size (new (T:=str)) = 0%Z ∧
  getNodes (new (T:=str)) = [] ∧
  (∀ x y, ¬ edge (new (T:=str)) x y) ∧
  Generate 7 [] = Ret new.
Proof.
  intros s.
  assert ((∃ post, s = arrow ++ post) ∨ (∀ pre post, s ≠ pre ++ arrow ++ post))
    as Hs by (left; exists (b ++ newline); reflexivity).
  split; [exact Hs|]. exact (Generate_empty_graph 7 s Hs).
Defined.
End Examples.

(** ** The representation along sequences of calls *)
Section Representation.
Context {T : Type} `{Countable T} `{LooseEq T}.
Implicit Types (g : t T) (node from to : T) (ops : list (op T))
  (m : list (T * list T)).

Lemma map_delete_length m node :
  (map_delete m node).2 = true →
  S (length (map_delete m node).1) = length m.
Proof.
  induction m as [|[k v] m IH]; simpl; [done|].
  destruct (decide (k = node)); [done|].
  destruct (map_delete m node) as [m' deleted]. simpl in *.
  intros Hd. by rewrite IH.
Qed.

Lemma size_remove g node :
  _size g = Z.of_nat (length (getNodes g)) →
  _size (remove g node) = Z.of_nat (length (getNodes (remove g node))).
Proof.
  unfold remove, getNodes, map_keys. rewrite !length_fmap.
  pose proof (map_delete_length (relationships g) node) as Hlen.
  destruct (map_delete (relationships g) node) as [m' [|]]; simpl in *; [|done].
  specialize (Hlen eq_refl). lia.
Qed.

Lemma size_add g node :
  _size g = Z.of_nat (length (getNodes g)) →
  _size (add g node) = Z.of_nat (length (getNodes (add g node))).
Proof.
  intros Hg. rewrite getNodes_add. unfold add.
  destruct (contains g node); simpl; [done|]. rewrite length_app. simpl. lia.
Qed.

Lemma size_step g (o : op T) :
  _size g = Z.of_nat (length (getNodes g)) →
  _size (step g o).1 = Z.of_nat (length (getNodes (step g o).1)).
Proof.
  intros Hg. destruct o as [node|node|from to]; simpl.
  - by apply size_add.
  - by apply size_remove.
  - rewrite addDependency_graph, getNodes_with_dependency.
    unfold with_dependency. simpl. by do 2 apply size_add.
Qed.

(** X3. After any sequence of [add], [remove] and [addDependency] calls on
    a fresh graph, whether or not some of them threw, [size()] is the
    number of nodes that [getNodes()] yields, and no node is yielded
    twice. *)
Theorem size_counts_nodes ops :
  let g := (run (new (T:=T)) ops).1 in
  size g = Z.of_nat (length (getNodes g)) ∧ NoDup (getNodes g).
Proof.
  assert (_size (new (T:=T)) = Z.of_nat (length (getNodes (new (T:=T)))) ∧
          keys_distinct (new (T:=T))) as Hinit by (split; [done | apply NoDup_nil_2]).
  revert Hinit. generalize (new (T:=T)) as g0.
  induction ops as [|o ops IH]; intros g0 [Hsz Hnd]; [done|].
  rewrite run_cons. cbn [fst]. apply IH.
  split; [by apply size_step | by apply step_keys_distinct].
Qed.

Lemma sets_distinct_map_set m node (v : list T) :
  Forall (λ kv, NoDup kv.2) m → NoDup v →
  Forall (λ kv, NoDup kv.2) (map_set m node v).
Proof.
  intros Hm Hv. induction m as [|[k v'] m IH]; simpl.
  - by apply Forall_singleton.
  - apply Forall_cons in Hm as [Hk Hm].
    destruct (decide (k = node)); apply Forall_cons; auto.
Qed.

Lemma sets_distinct_map_delete m node :
  Forall (λ kv, NoDup kv.2) m →
  Forall (λ kv, NoDup kv.2) (map_delete m node).1.
Proof.
  induction m as [|[k v'] m IH]; simpl; [done|].
  intros [Hk Hm]%Forall_cons. destruct (decide (k = node)); [done|].
  specialize (IH Hm). destruct (map_delete m node) as [m' deleted].
  by apply Forall_cons.
Qed.

Lemma set_add_NoDup (s : list T) x : NoDup s → NoDup (set_add s x).
Proof.
  intros Hs. unfold set_add. destruct (decide (x ∈ s)); [done|].
  apply NoDup_app. split; [done|]. split; [|apply NoDup_singleton].
  by intros y Hy ->%list_elem_of_singleton.
Qed.

Lemma sets_distinct_get g node (s : list T) :
  sets_distinct g → map_get (relationships g) node = Some s → NoDup s.
Proof.
  intros Hg Hs%map_get_Some. unfold sets_distinct in Hg.
  rewrite Forall_forall in Hg. by apply (Hg (node, s)).
Qed.

Lemma sets_distinct_add g node : sets_distinct g → sets_distinct (add g node).
Proof.
  intros Hg. unfold add. destruct (contains g node); [done|].
  apply sets_distinct_map_set; [done | apply NoDup_nil_2].
Qed.

Lemma sets_distinct_step g (o : op T) :
  sets_distinct g → sets_distinct (step g o).1.
Proof.
  intros Hg. destruct o as [node|node|from to]; simpl.
  - by apply sets_distinct_add.
  - unfold remove.
    pose proof (sets_distinct_map_delete (relationships g) node Hg) as Hd.
    by destruct (map_delete (relationships g) node) as [m' [|]].
  - rewrite addDependency_graph. unfold with_dependency.
    pose proof (sets_distinct_add _ to (sets_distinct_add _ from Hg)) as Hg2.
    apply sets_distinct_map_set; [done|]. apply set_add_NoDup.
    rewrite getDependents_shallow_default.
    destruct (map_get _ from) as [s|] eqn:Hs; [|apply NoDup_nil_2].
    by eapply sets_distinct_get.
Qed.

(** X4. After any sequence of calls on a fresh graph, the set of direct
    dependents of a node holds no item twice: adding a dependency that is
    already there adds no parallel edge. *)
Theorem no_parallel_edges ops node (s : list T) :
  getAdjacentNodes (run (new (T:=T)) ops).1 node = Some s → NoDup s.
Proof.
  unfold getAdjacentNodes. apply sets_distinct_get.
  assert (sets_distinct (new (T:=T))) as Hinit by apply Forall_nil_2.
  revert Hinit. generalize (new (T:=T)) as g0.
  induction ops as [|o ops IH]; intros g0 Hg0; [done|].
  rewrite run_cons. cbn [fst]. by apply IH, sets_distinct_step.
Qed.

Lemma add_present g node : contains g node = true → add g node = g.
Proof. intros Hc. unfold add. by rewrite Hc. Qed.

(** X5. [add] is idempotent, and the node it adds is in the graph; on a
    node that is already there it changes nothing, its set of dependents
    included. *)
Theorem add_idempotent g node :
  contains (add g node) node = true ∧
  add (add g node) node = add g node ∧
  (contains g node = true → add g node = g).
Proof.
  assert (contains (add g node) node = true) as Hc
    by (apply contains_add; by right).
  split; [done|]. split; [by apply add_present | apply add_present].
Qed.

Lemma map_set_same m node (v : list T) :
  map_get m node = Some v → map_set m node v = m.
Proof.
  induction m as [|[k v'] m IH]; simpl; [done|].
  destruct (decide (k = node)) as [->|]; [by intros [= ->]|].
  intros Hv. by rewrite IH.
Qed.

Lemma set_add_present (s : list T) x : x ∈ s → set_add s x = s.
Proof. intros Hx. unfold set_add. by rewrite decide_True. Qed.

Lemma with_dependency_idempotent g from to :
  with_dependency (with_dependency g from to) from to = with_dependency g from to.
Proof.
  set (g' := with_dependency g from to).
  assert (contains g' from = true) as Hf by (apply contains_with_dependency; auto).
  assert (contains g' to = true) as Ht by (apply contains_with_dependency; auto).
  assert (map_get (relationships g') from =
            Some (set_add (getDependents_shallow g from) to)) as Hget.
  { unfold g'. by rewrite map_get_with_dependency, decide_True. }
  unfold with_dependency at 1. rewrite (add_present g' from Hf), (add_present g' to Ht).
  rewrite getDependents_shallow_default, Hget.
  change (default [] (Some ?v)) with v.
  rewrite (set_add_present _ to) by (apply set_add_elem; by left).
  rewrite (map_set_same _ _ _ Hget). by destruct g'.
Qed.

Lemma addDependency_again g from to :
  addDependency (addDependency g from to).1 from to = addDependency g from to.
Proof.
  rewrite addDependency_graph, !addDependency_unfold.
  by rewrite with_dependency_idempotent.
Qed.

(** X6. Calling [addDependency(from, to)] a second time changes nothing:
    the graph stays as the first call left it, and the second call ends
    the way the first did (it throws again if the first threw). *)
Theorem addDependency_idempotent g from to :
  addDependency (addDependency g from to).1 from to = addDependency g from to.
Proof. apply addDependency_again. Qed.

(** X7. [remove(node)] on a graph whose keys are distinct takes the node
    out and leaves every other node's set as it was, so a set that holds
    the removed node keeps holding it; on an item that is not a node,
    [remove] changes nothing. *)
Theorem remove_leaves_other_sets g node :
  keys_distinct g →
  contains (remove g node) node = false ∧
  (∀ k, k ≠ node → getAdjacentNodes (remove g node) k = getAdjacentNodes g k) ∧
  (∀ k, k ≠ node → edge g k node → edge (remove g node) k node) ∧
  (contains g node = false → remove g node = g).
Proof.
  intros Hnd. split; [|split; [|split]].
  - unfold contains. apply map_has_false. rewrite map_get_remove by done.
    by rewrite decide_True.
  - intros k Hk. unfold getAdjacentNodes. rewrite map_get_remove by done.
    by rewrite decide_False.
  - intros k Hk Hedge. apply edge_remove; done.
  - intros Hc. unfold remove.
    pose proof (map_get_delete (relationships g) node node Hnd) as Hget.
    pose proof (map_delete_false (relationships g) node) as Hfalse.
    pose proof (map_delete_length (relationships g) node) as Hlen.
    destruct (map_delete (relationships g) node) as [m' [|]] eqn:Hdel; [|done].
    exfalso. clear Hfalse Hget.
    unfold contains in Hc. apply map_has_false, map_get_None in Hc.
    apply Hc. clear Hc Hlen Hnd.
    revert m' Hdel. induction (relationships g) as [|[k v] m IH]; intros m' Hdel;
      simpl in *; [done|].
    destruct (decide (k = node)) as [->|]; [left|].
    destruct (map_delete m node) as [m'' deleted]. injection Hdel as <- ->.
    right. by eapply IH.
Qed.

(** X8. [hasDependents(node)] is true exactly when [getDependents(node,
    true)] yields some item; for an item that is not a node it is
    [false]. *)
Theorem hasDependents_iff g node :
  (hasDependents g node = true ↔ ∃ d, edge g node d) ∧
  (contains g node = false → hasDependents g node = false).
Proof.
  unfold hasDependents, edge, contains, getDependents_shallow, map_has.
  destruct (map_get (relationships g) node) as [s|]; simpl.
  - split; [|done]. destruct s as [|d s]; simpl.
    + split; [done|]. by intros [d ?%elem_of_nil].
    + split; [|done]. intros _. exists d. left.
  - split; [|done]. split; [done|]. by intros [d ?%elem_of_nil].
Qed.
End Representation.

(** ** The topological traversal on graphs that may hold cycles *)
Section AnyGraph.
Context {T : Type} `{Countable T}.
Implicit Types (g : t T) (visited : gset T) (node d : T).

(** One call of [getTopologicalDependents] on an unmarked node, without
    any assumption on the relation: the call puts the node and the items
    it newly marks in front of the list, and all their direct dependents
    are marked when it returns. *)
Lemma getTopologicalDependents_any fuel g node visited list st :
  getTopologicalDependents fuel g node visited list = Ret st →
  node ∉ visited →
  (∀ x, x ∈ LinkedList.iterate list → x ∈ visited) →
  NoDup (LinkedList.iterate list) →
  ∃ new,
    LinkedList.iterate st.2 = node :: (new ++ LinkedList.iterate list) ∧
    (∀ x, x ∈ st.1 ↔ x ∈ visited ∨ x = node ∨ x ∈ new) ∧
    (∀ x, x ∈ new → (x ∉ visited) ∧ x ≠ node ∧ tc (edge g) node x) ∧
    (∀ x y, x = node ∨ x ∈ new → edge g x y → y ∈ st.1) ∧
    NoDup (LinkedList.iterate st.2).
Proof.
  revert node visited list st.
  induction fuel as [|fuel IH]; intros node visited list st; [done|].
  rewrite getTopologicalDependents_S.
  intros (st1 & Hloop & [= <-])%bind_Ret_inv Hnode Hlisted Hnd.
  set (items := LinkedList.iterate list) in *.
  apply (for_of_Ret (λ pre s, ∃ new,
           LinkedList.iterate s.2 = new ++ items ∧
           (∀ x, x ∈ s.1 ↔ x ∈ visited ∨ x = node ∨ x ∈ new) ∧
           (∀ x, x ∈ new → (x ∉ visited) ∧ x ≠ node ∧ tc (edge g) node x) ∧
           (∀ x y, x ∈ new → edge g x y → y ∈ s.1) ∧
           NoDup (LinkedList.iterate s.2) ∧
           (∀ d, d ∈ pre → d ∈ s.1))) in Hloop.
  - destruct Hloop as (new & Hit & Hvis & Hnew & Hclosed & Hnd1 & Hpre).
    exists new. cbn [fst snd]. rewrite LinkedListFacts.iterate_insert, Hit.
    split; [done|]. split; [done|]. split; [done|]. split.
    + intros x y [->|Hx] Hxy; [|by eapply Hclosed].
      apply Hpre. by unfold edge in Hxy.
    + apply NoDup_cons. rewrite <- Hit. split; [|done]. rewrite Hit.
      intros [Hn|Hn]%elem_of_app; [by destruct (Hnew node Hn) as (_ & ? & _)|].
      by apply Hnode, Hlisted.
  - exists []. cbn [fst snd]. split; [done|]. split; [set_solver|].
    split; [by intros x ?%elem_of_nil|]. split; [by intros x y ?%elem_of_nil|].
    split; [done|]. by intros d ?%elem_of_nil.
  - intros pre d post s s' Hds (new & Hit & Hvis & Hnew & Hclosed & Hnd1 & Hpre).
    assert (edge g node d) as Hedge by (unfold edge; rewrite Hds; set_solver).
    unfold topological_body. destruct (decide (d ∈ s.1)) as [Hd|Hd].
    + intros [= <-]. exists new. repeat (split; [done|]).
      intros d' [?| ->%list_elem_of_singleton]%elem_of_app; auto.
    + intros Hcall.
      apply IH in Hcall as (new' & Hit' & Hvis' & Hnew' & Hclosed' & Hnd');
        [|done| |done].
      * exists (d :: new' ++ new).
        split; [by rewrite Hit', Hit, app_comm_cons, app_assoc|].
        split; [intros x; rewrite Hvis', Hvis, elem_of_cons, elem_of_app; naive_solver|].
        split.
        { intros x [->|[Hx|Hx]%elem_of_app]%elem_of_cons.
          - split; [intros ?; apply Hd, Hvis; by left|].
            split; [intros ->; apply Hd, Hvis; by right; left|]. by apply tc_once.
          - destruct (Hnew' x Hx) as (Hxs & _ & Htc).
            split; [intros ?; apply Hxs, Hvis; by left|].
            split; [intros ->; apply Hxs, Hvis; by right; left|]. by eapply tc_l.
          - by apply Hnew. }
        split.
        { intros x y [->|[Hx|Hx]%elem_of_app]%elem_of_cons Hxy.
          - apply (Hclosed' d y); [by left | done].
          - apply (Hclosed' x y); [by right | done].
          - apply Hvis'. left. by eapply Hclosed. }
        split; [done|].
        intros d' [Hd'| ->%list_elem_of_singleton]%elem_of_app.
        -- apply Hvis'. left. by apply Hpre.
        -- apply Hvis'. right. by left.
      * intros x. rewrite Hit. intros [Hx|Hx]%elem_of_app; apply Hvis; auto.
Qed.

(** X9. On every graph state, with or without cycles,
    [getTopologicalSort()] returns: it neither throws nor recurses without
    end. The sequence it returns has no repetition, holds every node of
    the graph, and holds nothing but nodes and items reachable from
    nodes. *)
Theorem getTopologicalSort_any_graph g :
  ∃ l, getTopologicalSort g = Ret l ∧
       NoDup (LinkedList.iterate l) ∧
       (∀ x, contains g x = true → x ∈ LinkedList.iterate l) ∧
       (∀ x, x ∈ LinkedList.iterate l →
             ∃ k, contains g k = true ∧ rtc (edge g) k x).
Proof.
  unfold getTopologicalSort. fold (topological_body (depth_bound g) g).
  destruct (for_of _ _ _) as [st| |] eqn:Hloop.
  - exists st.2. split; [done|].
    apply (for_of_Ret (λ pre s,
             (∀ x, x ∈ s.1 ↔ x ∈ LinkedList.iterate s.2) ∧
             NoDup (LinkedList.iterate s.2) ∧
             (∀ x, x ∈ LinkedList.iterate s.2 →
                   ∃ k, k ∈ getNodes g ∧ rtc (edge g) k x) ∧
             (∀ d, d ∈ pre → d ∈ s.1))) in Hloop.
    + destruct Hloop as (Hvis & Hnd & Hreach & Hpre). split; [done|]. split.
      * intros x Hx%contains_getNodes. by apply Hvis, Hpre.
      * intros x Hx. destruct (Hreach x Hx) as (k & Hk%contains_getNodes & Hkx).
        by exists k.
    + cbn [fst snd]. split; [set_solver|]. split; [apply NoDup_nil_2|].
      split; [by intros x ?%elem_of_nil | by intros d ?%elem_of_nil].
    + intros pre d post s s' Hds (Hvis & Hnd & Hreach & Hpre).
      unfold topological_body. destruct (decide (d ∈ s.1)) as [Hd|Hd].
      * intros [= <-]. repeat (split; [done|]).
        intros d' [?| ->%list_elem_of_singleton]%elem_of_app; auto.
      * intros Hcall.
        apply getTopologicalDependents_any in Hcall
          as (new & Hit & Hvis' & Hnew & _ & Hnd'); [|done| |done].
        -- split.
           { intros x. rewrite Hvis', Hit, elem_of_cons, elem_of_app, Hvis.
             naive_solver. }
           split; [done|]. split.
           { assert (d ∈ getNodes g) as Hdk by (rewrite Hds; set_solver).
             intros x. rewrite Hit.
             intros [->|[Hx|Hx]%elem_of_app]%elem_of_cons; [by exists d| |by apply Hreach].
             exists d. split; [done|]. apply tc_rtc. by apply Hnew. }
           intros d' [?| ->%list_elem_of_singleton]%elem_of_app; apply Hvis'; auto.
        -- intros x. apply Hvis.
  - exfalso.
    apply (for_of_Raise (λ _ _, True)) in Hloop as (_ & d & _ & s & _ & _ & Hd);
      [|done..].
    unfold topological_body in Hd. destruct (decide (d ∈ s.1)); [done|].
    by apply getTopologicalDependents_never_raises in Hd.
  - exfalso. revert Hloop. apply (for_of_fuel (λ _ _, True)); [done..|].
    intros _ d _ s _ _. unfold topological_body.
    destruct (decide (d ∈ s.1)); [done|].
    apply getTopologicalDependents_enough_fuel, depth_bound_enough.
Qed.

(** X10. On every graph state, with or without cycles, and for every node
    [x] of the graph, [getDependents(x)] (deep) returns: it neither throws
    nor recurses without end. The sequence has no repetition, does not
    hold [x], and holds exactly the items other than [x] that are
    reachable from [x]. *)
Theorem getDependents_deep_any_graph g x :
  contains g x = true →
  ∃ items, getDependents g x false = Ret items ∧
    NoDup items ∧
    (x ∉ items) ∧
    (∀ y, y ∈ items ↔ tc (edge g) x y ∧ y ≠ x).
Proof.
  intros Hx. unfold getDependents. unfold contains in Hx. rewrite Hx. cbn [negb].
  destruct (getTopologicalDependents _ _ _ _ _) as [st|e|] eqn:Hcall.
  - apply getTopologicalDependents_any in Hcall
      as (new & Hit & Hvis & Hnew & Hclosed & Hnd);
      [|set_solver|by intros ? ?%elem_of_nil|apply NoDup_nil_2].
    change (LinkedList.iterate LinkedList.new) with (@nil T) in Hit.
    rewrite app_nil_r in Hit. rewrite Hit in Hnd.
    exists new. rewrite bind_Ret, iterate_remove, Hit. split; [done|].
    apply NoDup_cons in Hnd as [Hxn Hnd]. split; [done|]. split; [done|].
    intros y. split.
    + intros Hy. by destruct (Hnew y Hy) as (_ & ? & ?).
    + intros [Htc Hne].
      assert (y ∈ st.1) as Hy.
      { apply (rtc_edge_closed g st.1 x y); [|by apply tc_rtc|apply Hvis; auto].
        intros a b' Ha. apply Hclosed. apply Hvis in Ha as [?%elem_of_empty|?]; done. }
      apply Hvis in Hy as [?%elem_of_empty|[->|?]]; done.
  - by apply getTopologicalDependents_never_raises in Hcall.
  - exfalso. revert Hcall.
    apply getTopologicalDependents_enough_fuel, depth_bound_enough.
Qed.
End AnyGraph.

(** ** More about the textual form *)
Section TextMore.
Implicit Types (g : t str) (s f to : str) (es : list (str * str)).

Lemma Generate_lines es fuel :
  Forall (λ e, identifier_ok e.1 = true ∧ identifier_ok e.2 = true) es →
  (∀ to, head es ≠ Some ([], to)) →
  length es ≤ fuel →
  Generate fuel (mjoin (line <$> es)) = addDependencies new es.
Proof.
  intros Hok Hhd Hfuel. unfold Generate.
  apply (Generate_loop_lines es [] new fuel); [done| |done].
  intros [f to] He _. cbn [fst]. intros ->. by apply (Hhd to).
Qed.

(** X11. [Generate] reads a text made of lines [from->to\n], with
    identifiers free of the arrow and of newlines and a first source that
    is not empty, as the calls [addDependency(from, to)] made on a fresh
    graph in the order of the lines, ending at the first call that throws
    and throwing what it threw. *)
Theorem Generate_reads_lines es fuel :
  Forall (λ e, identifier_ok e.1 = true ∧ identifier_ok e.2 = true) es →
  (∀ to, head es ≠ Some ([], to)) →
  length es ≤ fuel →
  Generate fuel (mjoin (line <$> es)) = addDependencies new es.
Proof. apply Generate_lines. Qed.

(** The calls made for a list of pairs, from an acyclic graph: either all
    return and the graph stays acyclic, or one throws the
    circular-dependency error and the pairs close a cycle. *)
Lemma addDependencies_outcome es g :
  acyclic g →
  (∃ g', addDependencies g es = Ret g' ∧ acyclic g' ∧
         ∀ a b, edge g' a b ↔ edge g a b ∨ (a, b) ∈ es) ∨
  (addDependencies g es = Raise CircularDependency ∧
   ∃ x, tc (λ a b, edge g a b ∨ (a, b) ∈ es) x x).
Proof.
  revert g. induction es as [|[f to] es IH]; intros g Hac.
  - left. exists g. split; [done|]. split; [done|].
    intros a b. rewrite elem_of_nil. naive_solver.
  - cbn [addDependencies fst snd].
    pose proof (addDependency_graph g f to) as Hg1.
    pose proof (addDependency_outcome g f to) as Hout.
    pose proof (acyclic_addDependency g f to Hac) as Hac1.
    destruct (addDependency g f to) as [g1 r]. cbn [fst snd] in Hg1, Hout, Hac1.
    subst g1. destruct Hout as [[Hcyc ->]|[_ ->]].
    + right. split; [done|]. exists f. apply on_cycle_tc in Hcyc.
      eapply tc_subrel; [|exact Hcyc].
      intros a b [?|[-> ->]]%edge_with_dependency; [by left|right; left].
    + rewrite bind_Ret. specialize (Hac1 eq_refl).
      destruct (IH _ Hac1) as [(g' & Hg' & Hac' & Hedge)|[Hraise [x Hx]]].
      * left. exists g'. split; [done|]. split; [done|].
        intros a b. rewrite Hedge, edge_with_dependency, elem_of_cons.
        split; [|naive_solver]. intros [[?|[-> ->]]|?]; auto.
      * right. split; [done|]. exists x. eapply tc_subrel; [|exact Hx].
        intros a b [[?|[-> ->]]%edge_with_dependency|?]; [by left|right..].
        -- left.
        -- by right.
Qed.

(** X12. For such a text, [Generate] throws the circular-dependency error
    exactly when the pairs of the text close a directed cycle, and returns
    a graph exactly when they do not; the graph returned then has the
    pairs of the text as its direct-dependent relation, and is acyclic. *)
Theorem Generate_rejects_cycles es fuel :
  Forall (λ e, identifier_ok e.1 = true ∧ identifier_ok e.2 = true) es →
  (∀ to, head es ≠ Some ([], to)) →
  length es ≤ fuel →
  let r := Generate fuel (mjoin (line <$> es)) in
  (r = Raise CircularDependency ↔ ∃ x, tc (pairs_rel es) x x) ∧
  ((∃ g', r = Ret g') ↔ ¬ ∃ x, tc (pairs_rel es) x x) ∧
  (∀ g', r = Ret g' → acyclic g' ∧ ∀ a b, edge g' a b ↔ pairs_rel es a b).
Proof.
  intros Hok Hhd Hfuel r. subst r. rewrite Generate_lines by done.
  assert (∀ a b, ¬ edge (new (T:=str)) a b) as Hnew.
  { intros a b Hab. unfold edge in Hab. by apply elem_of_nil in Hab. }
  destruct (addDependencies_outcome es new acyclic_new)
    as [(g' & -> & Hac' & Hedge)|[-> [x Hx]]].
  - assert (∀ a b, edge g' a b ↔ pairs_rel es a b) as Hedge'.
    { intros a b. rewrite Hedge. unfold pairs_rel. split; [|by right].
      intros [?%Hnew|?]; done. }
    assert (¬ ∃ x, tc (pairs_rel es) x x) as Hno.
    { intros [x Hx]. apply (Hac' x). eapply tc_subrel; [|exact Hx].
      intros a b. by rewrite Hedge'. }
    split; [split; [done | by intros ?%Hno]|].
    split; [split; [done | by exists g']|]. by intros g'' [= <-].
  - assert (∃ x, tc (pairs_rel es) x x) as Hyes.
    { exists x. eapply tc_subrel; [|exact Hx]. intros a b [?%Hnew|?]; done. }
    split; [done|]. split; [|done].
    split; [by intros [g' ?] | by intros []].
Qed.

(** X13. [toString()] is the empty string exactly when the graph has no
    pair: nodes without dependents leave no trace in the text. *)
Theorem toString_empty_iff g :
  toString id g = [] ↔ ∀ a b, ¬ edge g a b.
Proof.
  rewrite toString_lines. split.
  - intros Hnil a b Hab%edges_list_spec.
    destruct (edges_list g) as [|e es]; [by apply elem_of_nil in Hab|].
    rewrite fmap_cons in Hnil. apply (f_equal length) in Hnil.
    change (mjoin (?x :: ?l)) with (x ++ mjoin l) in Hnil.
    unfold line in Hnil. rewrite !length_app in Hnil. simpl in Hnil. lia.
  - intros Hno. destruct (edges_list g) as [|[a b] es] eqn:Hes; [done|].
    destruct (Hno a b). apply edges_list_spec. rewrite Hes. left.
Qed.

Lemma substring_swapped s (k : nat) :
  k ≤ length s → JSString.substring s (Z.of_nat k) (-1) = take k s.
Proof.
  intros Hk. unfold JSString.substring, JSString.clamp, JSString.length.
  replace (Z.to_nat (Z.min (Z.max (Z.of_nat k) 0) _)) with k by lia.
  replace (Z.to_nat (Z.min (Z.max (-1) 0) _)) with 0 by lia.
  rewrite Nat.max_0_r, Nat.min_0_r, Nat.sub_0_r. by rewrite drop_0.
Qed.

Lemma substring_prefix s (k : nat) :
  k ≤ length s → JSString.substring s 0 (Z.of_nat k) = take k s.
Proof.
  intros Hk. unfold JSString.substring, JSString.clamp, JSString.length.
  replace (Z.to_nat (Z.min (Z.max (Z.of_nat k) 0) _)) with k by lia.
  replace (Z.to_nat (Z.min (Z.max 0 0) _)) with 0 by lia.
  rewrite Nat.max_0_l, Nat.min_0_l, Nat.sub_0_r. by rewrite drop_0.
Qed.

(** The first call made for a text [from->to] without newline returns. *)
Lemma addDependency_fresh_pair f to :
  f ≠ to → (addDependency (new (T:=str)) f to).2 = Ret ().
Proof.
  intros Hne.
  destruct (addDependency_outcome (new (T:=str)) f to) as [[Hcyc _]|[_ Hr]]; [|done].
  exfalso. destruct Hcyc as (d & Hd & Htc).
  assert (∀ a b, edge (with_dependency (new (T:=str)) f to) a b → a = f ∧ b = to)
    as Honly.
  { intros a b [Hab|?]%edge_with_dependency; [|done].
    unfold edge in Hab. by apply elem_of_nil in Hab. }
  apply Honly in Hd as [_ ->].
  assert (∃ y, edge (with_dependency (new (T:=str)) f to) to y) as [y Hy]
    by (inversion Htc; eauto).
  apply Honly in Hy as [? _]. congruence.
Qed.

(** X14. A text whose only line lacks the final newline is never read to
    the end: with a source [from] that is not empty and free of the arrow,
    [Generate] keeps calling [addDependency(from, from + "->")] and never
    leaves its loop, whatever the fuel. *)
Theorem Generate_without_final_newline f to fuel :
  f ≠ [] →
  JSString.includes f arrow = false →
  JSString.includes (f ++ arrow ++ to) newline = false →
  Generate fuel (f ++ arrow ++ to) = OutOfFuel.
Proof.
  intros Hf Harrow Hnl. set (s := f ++ arrow ++ to).
  set (g1 := (addDependency (new (T:=str)) f (f ++ arrow)).1).
  assert (length f + 2 ≤ length s) as Hlen.
  { unfold s. rewrite !length_app. simpl. lia. }
  assert (JSString.indexOf s arrow 0 = Z.of_nat (length f)) as Hi0.
  { apply (indexOf_arrow [] f to Harrow). }
  assert (JSString.substring s 0 (Z.of_nat (length f)) = f) as Hfrom.
  { rewrite substring_prefix by lia. unfold s. by rewrite take_app_length. }
  assert (JSString.indexOf s newline (Z.of_nat (length f)) = (-1)%Z) as Hi1.
  { rewrite indexOf_drop by lia. apply search_absent. intros pre post Heq.
    rewrite includes_false in Hnl. apply (Hnl (take (length f) s ++ pre) post).
    rewrite <- app_assoc, <- Heq. by rewrite take_drop. }
  assert (JSString.substring s (Z.of_nat (length f) + 1 + 1) (-1) = f ++ arrow) as Hto.
  { replace (Z.of_nat (length f) + 1 + 1)%Z with (Z.of_nat (length f + 2)) by lia.
    rewrite substring_swapped by done. unfold s.
    replace (length f + 2) with (length (f ++ arrow)) by (rewrite length_app; done).
    by rewrite app_assoc, take_app_length. }
  assert (f ≠ f ++ arrow) as Hne.
  { intros Heq%(f_equal length). rewrite length_app in Heq. simpl in Heq. lia. }
  assert (∀ g, g = new ∨ g = g1 → addDependency g f (f ++ arrow) = (g1, Ret ()))
    as Hcall.
  { pose proof (addDependency_fresh_pair f (f ++ arrow) Hne) as Hret.
    intros g [->| ->].
    - unfold g1. destruct (addDependency new f (f ++ arrow)) as [g r].
      cbn [fst snd] in *. by subst r.
    - unfold g1. rewrite addDependency_again.
      destruct (addDependency new f (f ++ arrow)) as [g r].
      cbn [fst snd] in *. by subst r. }
  unfold Generate. fold s. rewrite Hi0.
  assert (length f ≠ 0) as Hpos by (by destruct f).
  assert (∀ g, g = new ∨ g = g1 →
            Generate_loop fuel s g 0 (Z.of_nat (length f)) = OutOfFuel) as Hloop.
  { induction fuel as [|fuel IH]; intros g Hg.
    - simpl. replace (Z.of_nat (length f) >? 0)%Z with true by lia. done.
    - rewrite Generate_loop_S by lia. cbn zeta.
      rewrite Hfrom, Hi1, Hto, (Hcall g Hg), bind_Ret.
      change (-1 + 1)%Z with 0%Z. rewrite Hi0. apply IH. by right. }
  apply Hloop. by left.
Qed.
End TextMore.

(** ** The further theorems with hypotheses, at concrete inputs *)
Section MoreExamples.
Local Abbreviation a := (JSString.lit "a").
Local Abbreviation b := (JSString.lit "b").
Local Abbreviation c := (JSString.lit "c").

Lemma diamond_keys_distinct : keys_distinct diamond.
Proof.
  apply run_acyclic; [apply keys_distinct_new | apply acyclic_new |].
  vm_compute. repeat constructor.
Qed.

Lemma no_parallel_edges_witness :
  let ops := [AddDependency a b; AddDependency a b; AddDependency a c] in
  getAdjacentNodes (run (new (T:=str)) ops).1 a = Some [b; c] ∧ NoDup [b; c].
Proof.
  intros ops.
  assert (getAdjacentNodes (run (new (T:=str)) ops).1 a = Some [b; c]) as Hs
    by (vm_compute; reflexivity).
  split; [exact Hs|]. exact (no_parallel_edges ops a [b; c] Hs).
Defined.

Lemma remove_leaves_other_sets_witness :
  keys_distinct diamond ∧
  contains (remove diamond b) b = false ∧
  (∀ k, k ≠ b → getAdjacentNodes (remove diamond b) k = getAdjacentNodes diamond k) ∧
  (∀ k, k ≠ b → edge diamond k b → edge (remove diamond b) k b) ∧
  (contains diamond b = false → remove diamond b = diamond).
Proof.
  split; [exact diamond_keys_distinct|].
  exact (remove_leaves_other_sets diamond b diamond_keys_distinct).
Defined.

Lemma getDependents_deep_any_graph_witness :
  contains two_cycle a = true ∧
  ∃ items, getDependents two_cycle a false = Ret items ∧
    NoDup items ∧
    (a ∉ items) ∧
    (∀ y, y ∈ items ↔ tc (edge two_cycle) a y ∧ y ≠ a).
Proof.
  assert (contains two_cycle a = true) as Ha by (vm_compute; reflexivity).
  split; [exact Ha|]. exact (getDependents_deep_any_graph two_cycle a Ha).
Defined.

Lemma Generate_reads_lines_witness :
  let es := [(a, b); (b, c)] in
  Forall (λ e, identifier_ok e.1 = true ∧ identifier_ok e.2 = true) es ∧
  (∀ to, head es ≠ Some ([], to)) ∧
  length es ≤ 2 ∧
  Generate 2 (mjoin (line <$> es)) = addDependencies new es.
Proof.
  intros es.
  assert (Forall (λ e, identifier_ok e.1 = true ∧ identifier_ok e.2 = true) es)
    as Hok by (repeat constructor).
  assert (∀ to, head es ≠ Some ([], to)) as Hhd by (intros to; discriminate).
  assert (length es ≤ 2) as Hfuel by (simpl; lia).
  split; [exact Hok|]. split; [exact Hhd|]. split; [exact Hfuel|].
  exact (Generate_reads_lines es 2 Hok Hhd Hfuel).
Defined.

Lemma Generate_rejects_cycles_witness :
  let es := [(a, b); (b, a)] in
  Forall (λ e, identifier_ok e.1 = true ∧ identifier_ok e.2 = true) es ∧
  (∀ to, head es ≠ Some ([], to)) ∧
  length es ≤ 2 ∧
  (let r := Generate 2 (mjoin (line <$> es)) in
   (r = Raise CircularDependency ↔ ∃ x, tc (pairs_rel es) x x) ∧
   ((∃ g', r = Ret g') ↔ ¬ ∃ x, tc (pairs_rel es) x x) ∧
   (∀ g', r = Ret g' → acyclic g' ∧ ∀ x y, edge g' x y ↔ pairs_rel es x y)).
Proof.
  intros es.
  assert (Forall (λ e, identifier_ok e.1 = true ∧ identifier_ok e.2 = true) es)
    as Hok by (repeat constructor).
  assert (∀ to, head es ≠ Some ([], to)) as Hhd by (intros to; discriminate).
  assert (length es ≤ 2) as Hfuel by (simpl; lia).
  split; [exact Hok|]. split; [exact Hhd|]. split; [exact Hfuel|].
  exact (Generate_rejects_cycles es 2 Hok Hhd Hfuel).
Defined.

Lemma Generate_without_final_newline_witness :
  a ≠ [] ∧
  JSString.includes a arrow = false ∧
  JSString.includes (a ++ arrow ++ b) newline = false ∧
  Generate 5 (a ++ arrow ++ b) = OutOfFuel.
Proof.
  assert (a ≠ []) as Ha by discriminate.
  assert (JSString.includes a arrow = false) as Harrow by reflexivity.
  assert (JSString.includes (a ++ arrow ++ b) newline = false) as Hnl by reflexivity.
  split; [exact Ha|]. split; [exact Harrow|]. split; [exact Hnl|].
  exact (Generate_without_final_newline a b 5 Ha Harrow Hnl).
Defined.
End MoreExamples.

End DependencyGraphFacts.
